(** * CoarseDropout: hole sampling, target application and schema checks

    A shallow embedding of
    [albumentations/augmentations/dropout/coarse_dropout.py].

    Python numbers are modelled as they are: [int] is [Z], [float] is an
    IEEE 754 binary64 value ([spec_float] with precision 53 and maximal
    exponent 1024) with the correctly rounded operations of [SpecFloat].
    Random draws are requests of a small command tree, answered from a
    tape of draws. *)

From Stdlib Require Import String ZArith QArith Qround List Bool Lia.
From Stdlib Require Import Floats.SpecFloat.
Import ListNotations.
Local Open Scope Z_scope.

(** ** Python numbers *)

Module PyNum.

Definition prec : Z := 53.
Definition emax : Z := 1024.

(** A Python [float]. *)
Definition float : Type := spec_float.

(** [ScalarType = Union[int, float]]. *)
Inductive ScalarType : Type :=
| PyInt (z : Z)
| PyFloat (f : float).

(** [isinstance(x, int)] and [isinstance(x, float)]. *)
Definition is_int (x : ScalarType) : bool :=
  match x with PyInt _ => true | PyFloat _ => false end.

Definition is_float (x : ScalarType) : bool :=
  match x with PyInt _ => false | PyFloat _ => true end.

(** [float(z)]: the nearest binary64 value, ties to even; Python raises
    [OverflowError] where the rounding would give an infinity. *)
Definition float_of_int (z : Z) : option float :=
  match binary_normalize prec emax z 0 false with
  | S754_infinity _ => None
  | S754_nan => None
  | f => Some f
  end.

(** The magnitude [m * 2^e], rounded towards zero. *)
Definition trunc_mag (m : positive) (e : Z) : Z :=
  if 0 <=? e then Z.pos m * 2 ^ e else Z.pos m / 2 ^ (- e).

(** [int(f)]: truncation towards zero; [None] stands for the
    [ValueError] (nan) or [OverflowError] (infinity) Python raises. *)
Definition py_int (f : float) : option Z :=
  match f with
  | S754_zero _ => Some 0
  | S754_finite s m e =>
      Some (if s then - trunc_mag m e else trunc_mag m e)
  | S754_infinity _ => None
  | S754_nan => None
  end.

(** The exact rational value of a finite float. *)
Definition float_val (f : float) : option Q :=
  match f with
  | S754_zero _ => Some 0%Q
  | S754_finite s m e =>
      let n := if s then Z.neg m else Z.pos m in
      Some (if 0 <=? e then inject_Z (n * 2 ^ e)
            else Qmake n (Z.to_pos (2 ^ (- e))))
  | S754_infinity _ => None
  | S754_nan => None
  end.

(** Python compares an [int] with a [float] exactly. *)
Definition int_float_compare (z : Z) (f : float) : option comparison :=
  match f with
  | S754_nan => None
  | S754_infinity s => Some (if s then Gt else Lt)
  | S754_zero _ => Some (z ?= 0)
  | S754_finite s m e =>
      let n := if s then Z.neg m else Z.pos m in
      Some (if 0 <=? e then z ?= n * 2 ^ e else z * 2 ^ (- e) ?= n)
  end.

Definition py_compare (a b : ScalarType) : option comparison :=
  match a, b with
  | PyInt x, PyInt y => Some (x ?= y)
  | PyFloat x, PyFloat y => SFcompare x y
  | PyInt x, PyFloat y => int_float_compare x y
  | PyFloat x, PyInt y => option_map CompOpp (int_float_compare y x)
  end.

(** [a <= b] and [a < b]; every comparison with a nan is false. *)
Definition py_le (a b : ScalarType) : bool :=
  match py_compare a b with
  | Some Lt | Some Eq => true
  | _ => false
  end.

Definition py_lt (a b : ScalarType) : bool :=
  match py_compare a b with
  | Some Lt => true
  | _ => false
  end.

(** [min(a, b)]: the second argument only when it is strictly less. *)
Definition py_min (a b : ScalarType) : ScalarType :=
  if py_lt b a then b else a.

Definition float_one : float := S754_finite false 4503599627370496 (-52).

(** [a + 1]. *)
Definition py_succ (a : ScalarType) : ScalarType :=
  match a with
  | PyInt z => PyInt (z + 1)
  | PyFloat f => PyFloat (SFadd prec emax f float_one)
  end.

(** [z * f] for an [int] [z] and a [float] [f]: [z] is converted first. *)
Definition py_mul_int_float (z : Z) (f : float) : option float :=
  match float_of_int z with
  | Some zf => Some (SFmul prec emax zf f)
  | None => None
  end.

(** Truth value of a number, as [or] tests it. *)
Definition py_truthy (a : ScalarType) : bool :=
  match a with
  | PyInt z => negb (z =? 0)
  | PyFloat (S754_zero _) => false
  | PyFloat _ => true
  end.

(** [float(a)] for either kind of number. *)
Definition to_float (a : ScalarType) : option float :=
  match a with
  | PyInt z => float_of_int z
  | PyFloat f => Some f
  end.

(** Float literals, correctly rounded from a quotient of integers. *)
Definition float_lit (num den : Z) : float :=
  SFdiv prec emax (binary_normalize prec emax num 0 false)
                  (binary_normalize prec emax den 0 false).

End PyNum.

Import PyNum.

(** ** Random draws

    The draws come from [random_utils], a module of the repository beside
    this one.  A computation that draws random numbers is a tree of draw
    requests; a run answers the requests, in the order they are made, from
    a tape of draws. *)

Inductive exn : Type :=
| ValueError_order (range_name : string) (minimum : Z)
| ValueError_unit_interval (range_name : string)
| ValueError_low_ge_high
| ConversionError
| OverflowError.

Inductive Rand (A : Type) : Type :=
| Ret (a : A)
| Raise (e : exn)
| RandInt (lo hi : Z) (k : Z -> Rand A)
| Uniform (lo hi : float) (k : float -> Rand A).

Arguments Ret {A} a.
Arguments Raise {A} e.
Arguments RandInt {A} lo hi k.
Arguments Uniform {A} lo hi k.

Fixpoint bind {A B : Type} (m : Rand A) (f : A -> Rand B) : Rand B :=
  match m with
  | Ret a => f a
  | Raise e => Raise e
  | RandInt lo hi k => RandInt lo hi (fun z => bind (k z) f)
  | Uniform lo hi k => Uniform lo hi (fun x => bind (k x) f)
  end.

Declare Scope rand_scope.
Delimit Scope rand_scope with rand.
Notation "x <- c ;; k" := (bind c (fun x => k))
  (at level 100, c at next level, right associativity) : rand_scope.
Notation "' p <- c ;; k" := (bind c (fun x => match x with p => k end))
  (at level 100, p pattern, c at next level, right associativity) : rand_scope.
Local Open Scope rand_scope.

(** One answer of the random source. *)
Inductive draw : Type :=
| DInt (z : Z)
| DFloat (f : float).

Inductive outcome (A : Type) : Type :=
| Returned (a : A)
| Raised (e : exn).

Arguments Returned {A} a.
Arguments Raised {A} e.

(** An integer answer lies in the closed interval asked for; a float answer
    is a binary64 value between the two bounds. *)
Definition int_answer_ok (lo hi z : Z) : bool := (lo <=? z) && (z <=? hi).

Definition float_answer_ok (lo hi f : float) : bool :=
  valid_binary prec emax f && SFleb lo f && SFleb f hi.

(** [run m tape]: the outcome of [m] and the draws left over, or [None]
    when the tape does not answer the requests of [m]. *)
Fixpoint run {A : Type} (m : Rand A) (tape : list draw)
  : option (outcome A * list draw) :=
  match m with
  | Ret a => Some (Returned a, tape)
  | Raise e => Some (Raised e, tape)
  | RandInt lo hi k =>
      match tape with
      | DInt z :: rest =>
          if int_answer_ok lo hi z then run (k z) rest else None
      | _ => None
      end
  | Uniform lo hi k =>
      match tape with
      | DFloat f :: rest =>
          if float_answer_ok lo hi f then run (k f) rest else None
      | _ => None
      end
  end.

(** [int(x)] for either kind of number. *)
Definition int_of_scalar (x : ScalarType) : option Z :=
  match x with
  | PyInt z => Some z
  | PyFloat f => py_int f
  end.

(** Modelled from the spec: [random_utils.randint(low, high)], which is not
    in the sources.  The spec has it draw uniformly from an integer
    interval, and the sampler passes the upper bound plus one, so the
    interval is half-open: the draw is an integer [z] with
    [low <= z < high].  As in numpy, both bounds go through [int], and an
    empty interval raises a [ValueError]. *)
Definition randint (low high : ScalarType) : Rand Z :=
  match int_of_scalar low, int_of_scalar high with
  | Some lo, Some hi =>
      if lo <? hi then RandInt lo (hi - 1) (fun z => Ret z)
      else Raise ValueError_low_ge_high
  | _, _ => Raise ConversionError
  end.

(** Modelled from the spec: [random_utils.uniform(low, high)], which is not
    in the sources: a uniform fraction [f] in [[low, high]], both bounds
    taken as floats. *)
Definition uniform (low high : ScalarType) : Rand float :=
  match to_float low, to_float high with
  | Some lo, Some hi => Uniform lo hi (fun f => Ret f)
  | _, _ => Raise OverflowError
  end.

(** ** The transform *)

(** A hole [(x1, y1, x2, y2)]. *)
Definition Hole : Type := Z * Z * Z * Z.

(** [ColorType] values are scalars or per-channel sequences of scalars. *)
Inductive ColorType : Type :=
| ColorScalar (v : ScalarType)
| ColorSeq (vs : list ScalarType).

Inductive FillValue : Type :=
| FillColor (c : ColorType)
| FillRandom.

(** The attributes [__init__] stores. *)
Record CoarseDropout : Type := {
  num_holes_range : Z * Z;
  hole_height_range : ScalarType * ScalarType;
  hole_width_range : ScalarType * ScalarType;
  fill_value : FillValue;
  mask_fill_value : option ColorType
}.

(** [int(dimension * f)]. *)
Definition int_of_product (dimension : Z) (f : float) : Rand Z :=
  match py_mul_int_float dimension f with
  | Some p =>
      match py_int p with
      | Some z => Ret z
      | None => Raise ConversionError
      end
  | None => Raise OverflowError
  end.

Definition calculate_hole_dimensions (height width : Z)
    (height_range width_range : ScalarType * ScalarType) : Rand (Z * Z) :=
  if is_int (fst height_range) then
    let min_height := fst height_range in
    let max_height := snd height_range in
    let min_width := fst width_range in
    let max_width := snd width_range in
    let max_height := py_min max_height (PyInt height) in
    let max_width := py_min max_width (PyInt width) in
    hole_height <- randint min_height (py_succ max_height) ;;
    hole_width <- randint min_width (py_succ max_width) ;;
    Ret (hole_height, hole_width)
  else
    fh <- uniform (fst height_range) (snd height_range) ;;
    hole_height <- int_of_product height fh ;;
    fw <- uniform (fst width_range) (snd width_range) ;;
    hole_width <- int_of_product width fw ;;
    Ret (hole_height, hole_width).

(** The body of [for _ in range(num_holes)], [n] iterations to go. *)
Fixpoint holes_loop (n : nat) (height width : Z)
    (height_range width_range : ScalarType * ScalarType)
    (holes : list Hole) : Rand (list Hole) :=
  match n with
  | O => Ret holes
  | S n' =>
      '(hole_height, hole_width) <-
        calculate_hole_dimensions height width height_range width_range ;;
      y1 <- randint (PyInt 0) (PyInt (height - hole_height + 1)) ;;
      x1 <- randint (PyInt 0) (PyInt (width - hole_width + 1)) ;;
      let y2 := y1 + hole_height in
      let x2 := x1 + hole_width in
      holes_loop n' height width height_range width_range
                 (holes ++ [(x1, y1, x2, y2)])
  end.

(** [height, width = img.shape[:2]] are passed directly. *)
Definition get_params_dependent_on_targets (self : CoarseDropout)
    (height width : Z) : Rand (list Hole) :=
  num_holes <- randint (PyInt (fst (num_holes_range self)))
                       (PyInt (snd (num_holes_range self) + 1)) ;;
  holes_loop (Z.to_nat num_holes) height width
             (hole_height_range self) (hole_width_range self) [].

(** ** The init schema *)

(** Truth values, as [min_value or max_value] tests them. *)
Class Truthy (T : Type) : Type := truthy : T -> bool.

#[export] Instance Truthy_int : Truthy Z := fun z => negb (z =? 0).
#[export] Instance Truthy_scalar : Truthy ScalarType := py_truthy.

(** [a or b] where [a] may be [None]. *)
Definition py_or {T : Type} `{Truthy T} (a : option T) (b : T) : T :=
  match a with
  | Some v => if truthy v then v else b
  | None => b
  end.

Module InitSchema.

Record t : Type := {
  min_holes : option Z;
  max_holes : option Z;
  num_holes_range : Z * Z;
  min_height : option ScalarType;
  max_height : option ScalarType;
  hole_height_range : ScalarType * ScalarType;
  min_width : option ScalarType;
  max_width : option ScalarType;
  hole_width_range : ScalarType * ScalarType;
  fill_value : FillValue;
  mask_fill_value : option ColorType
}.

(** The field defaults. *)
Definition defaults : t := {|
  min_holes := None;
  max_holes := Some 8;
  num_holes_range := (1, 1);
  min_height := None;
  max_height := Some (PyInt 8);
  hole_height_range := (PyInt 8, PyInt 8);
  min_width := None;
  max_width := Some (PyInt 8);
  hole_width_range := (PyInt 8, PyInt 8);
  fill_value := FillColor (ColorScalar (PyInt 0));
  mask_fill_value := None
|}.

Definition update_range {T : Type} `{Truthy T}
    (min_value max_value : option T) (default_range : T * T) : T * T :=
  match max_value with
  | Some mx => (py_or min_value mx, mx)
  | None => default_range
  end.

(** [minimum <= x <= y], a chained comparison. *)
Definition chain_le (a b c : ScalarType) : bool := py_le a b && py_le b c.

(** [all(0 <= x <= 1 for x in range_value)]. *)
Definition all_in_unit (range_value : ScalarType * ScalarType) : bool :=
  forallb (fun x => chain_le (PyInt 0) x (PyInt 1))
          [fst range_value; snd range_value].

(** [minimum] is only ever passed the integers 0 and 1. *)
Definition validate_range (range_value : ScalarType * ScalarType)
    (range_name : string) (minimum : Z) : outcome unit :=
  if negb (chain_le (PyInt minimum) (fst range_value) (snd range_value))
  then Raised (ValueError_order range_name minimum)
  else if is_float (fst range_value) && negb (all_in_unit range_value)
  then Raised (ValueError_unit_interval range_name)
  else Returned tt.

Definition int_range (r : Z * Z) : ScalarType * ScalarType :=
  (PyInt (fst r), PyInt (snd r)).

(** The three assignments at the top of the validator. *)
Definition normalize (self : t) : t := {|
  min_holes := min_holes self;
  max_holes := max_holes self;
  num_holes_range :=
    update_range (min_holes self) (max_holes self) (num_holes_range self);
  min_height := min_height self;
  max_height := max_height self;
  hole_height_range :=
    update_range (min_height self) (max_height self)
                 (hole_height_range self);
  min_width := min_width self;
  max_width := max_width self;
  hole_width_range :=
    update_range (min_width self) (max_width self) (hole_width_range self);
  fill_value := fill_value self;
  mask_fill_value := mask_fill_value self
|}.

(** The three [validate_range] calls, in order. *)
Definition validate (self : t) : outcome unit :=
  match validate_range (int_range (num_holes_range self))
                       "num_holes_range" 1 with
  | Raised e => Raised e
  | Returned _ =>
      match validate_range (hole_height_range self)
                           "hole_height_range" 0 with
      | Raised e => Raised e
      | Returned _ =>
          validate_range (hole_width_range self) "hole_width_range" 0
      end
  end.

Definition check_holes_and_dimensions (self : t) : outcome t :=
  let self' := normalize self in
  match validate self' with
  | Raised e => Raised e
  | Returned _ => Returned self'
  end.

End InitSchema.

(** [__init__] with the fields of a checked schema. *)
Definition init (args : InitSchema.t) : CoarseDropout := {|
  num_holes_range := InitSchema.num_holes_range args;
  hole_height_range := InitSchema.hole_height_range args;
  hole_width_range := InitSchema.hole_width_range args;
  fill_value := InitSchema.fill_value args;
  mask_fill_value := InitSchema.mask_fill_value args
|}.

(** The ranges of a transform pass [validate_range]. *)
Definition valid_ranges (self : CoarseDropout) : Prop :=
  InitSchema.validate_range
    (InitSchema.int_range (num_holes_range self)) "num_holes_range" 1
    = Returned tt /\
  InitSchema.validate_range (hole_height_range self) "hole_height_range" 0
    = Returned tt /\
  InitSchema.validate_range (hole_width_range self) "hole_width_range" 0
    = Returned tt.

(** ** The target applicator *)

(** An image or mask buffer: rows of pixels, a pixel being its channels. *)
Definition ndarray : Type := list (list (list ScalarType)).

Inductive shape_error : Type := ShapeMismatchError.

Fixpoint mapi_from {A B : Type} (f : Z -> A -> B) (i : Z) (l : list A)
  : list B :=
  match l with
  | [] => []
  | a :: l' => f i a :: mapi_from f (i + 1) l'
  end.

Definition cell_in_hole (hole : Hole) (x y : Z) : bool :=
  let '(x1, y1, x2, y2) := hole in
  (x1 <=? x) && (x <? x2) && (y1 <=? y) && (y <? y2).

Definition fill_pixel (c : ColorType) (px : list ScalarType)
  : list ScalarType :=
  match c with
  | ColorScalar v => map (fun _ => v) px
  | ColorSeq vs => vs
  end.

Definition fill_fits (c : ColorType) (img : ndarray) : bool :=
  match c with
  | ColorScalar _ => true
  | ColorSeq vs =>
      forallb (forallb (fun px => Nat.eqb (List.length px) (List.length vs))) img
  end.

Definition hole_fits (img : ndarray) (hole : Hole) : bool :=
  let '(x1, y1, x2, y2) := hole in
  (0 <=? x1) && (x1 <=? x2) && (0 <=? y1) && (y1 <=? y2) &&
  (y2 <=? Z.of_nat (List.length img)) &&
  forallb (fun row => x2 <=? Z.of_nat (List.length row)) img.

(** Modelled from the spec: [functional.cutout], which is not in the
    sources, for a constant fill: for each hole in order, the sub-region
    [[y1:y2, x1:x2]] is overwritten, a scalar broadcast over the channels
    and a sequence taken per channel; a hole outside the buffer or a
    sequence whose length is not the channel count is an error. *)
Definition cutout (img : ndarray) (holes : list Hole) (fill : ColorType)
  : shape_error + ndarray :=
  if forallb (hole_fits img) holes && fill_fits fill img then
    inr (fold_left
           (fun buf hole =>
              mapi_from
                (fun y row =>
                   mapi_from
                     (fun x px =>
                        if cell_in_hole hole x y then fill_pixel fill px
                        else px)
                     0 row)
                0 buf)
           holes img)
  else inl ShapeMismatchError.

Definition apply_to_mask (mask : ndarray)
    (mask_fill_value : option ColorType) (holes : list Hole)
  : shape_error + ndarray :=
  match mask_fill_value with
  | None => inr mask
  | Some v => cutout mask holes v
  end.

(** A keypoint: its coordinates, and whatever else it carries. *)
Record KeypointType : Type := {
  kp_x : ScalarType;
  kp_y : ScalarType;
  kp_rest : list ScalarType
}.

(** Modelled from the spec: [functional.keypoint_in_hole], which is not in
    the sources: a point [(px, py)] is inside hole [(x1, y1, x2, y2)] iff
    [x1 <= px < x2] and [y1 <= py < y2]. *)
Definition keypoint_in_hole (keypoint : KeypointType) (hole : Hole) : bool :=
  let '(x1, y1, x2, y2) := hole in
  let x := kp_x keypoint in
  let y := kp_y keypoint in
  py_le (PyInt x1) x && py_lt x (PyInt x2) &&
  py_le (PyInt y1) y && py_lt y (PyInt y2).

Definition apply_to_keypoints (keypoints : list KeypointType)
    (holes : list Hole) : list KeypointType :=
  filter (fun keypoint =>
            negb (existsb (fun hole => keypoint_in_hole keypoint hole) holes))
         keypoints.

(** ** Runs of the sampler, read off the tape *)

(** The four quantities drawn for one hole. *)
Record sample : Type := {
  s_height : Z;
  s_width : Z;
  s_y1 : Z;
  s_x1 : Z
}.

Definition hole_of_sample (s : sample) : Hole :=
  (s_x1 s, s_y1 s, s_x1 s + s_width s, s_y1 s + s_height s).

(** The size a draw stands for: an integer draw is the size itself, a
    float draw [f] gives [int(dimension * f)]. *)
Definition draw_size (dimension : Z) (d : draw) : option Z :=
  match d with
  | DInt z => Some z
  | DFloat f =>
      match py_mul_int_float dimension f with
      | Some p => py_int p
      | None => None
      end
  end.

(** Reads [n] holes off the tape, four draws each: the height draw, the
    width draw, [y1], [x1]. *)
Fixpoint read_samples (n : nat) (height width : Z) (tape : list draw)
  : option (list sample * list draw) :=
  match n with
  | O => Some ([], tape)
  | S n' =>
      match tape with
      | dh :: dw :: DInt y :: DInt x :: rest =>
          match draw_size height dh, draw_size width dw with
          | Some hh, Some hw =>
              match read_samples n' height width rest with
              | Some (ss, rest') =>
                  Some ({| s_height := hh; s_width := hw;
                           s_y1 := y; s_x1 := x |} :: ss, rest')
              | None => None
              end
          | _, _ => None
          end
      | _ => None
      end
  end.

(** ** Runs of the sampler, in words *)

(** What a run of [randint low high] tells about its draw. *)
Definition int_drawn (low high : ScalarType) (d : draw) (size : Z) : Prop :=
  d = DInt size /\
  exists lo hi, int_of_scalar low = Some lo /\ int_of_scalar high = Some hi /\
                lo <= size < hi.

(** What a run of [int(dimension * uniform(low, high))] tells about its
    draw. *)
Definition fraction_drawn (dimension : Z) (low high : ScalarType)
    (d : draw) (size : Z) : Prop :=
  exists f lo hi, d = DFloat f /\
    to_float low = Some lo /\ to_float high = Some hi /\
    float_answer_ok lo hi f = true /\
    draw_size dimension d = Some size.

(** The corner of a hole lies so that the hole fits the image. *)
Definition corner_fits (height width : Z) (s : sample) : Prop :=
  0 <= s_y1 s <= height - s_height s /\ 0 <= s_x1 s <= width - s_width s.

(** ** Signs and values of floats *)

(** A float that is not below zero (a nan is not). *)
Definition not_negative (f : float) : bool :=
  match f with
  | S754_finite true _ _ => false
  | S754_infinity true => false
  | _ => true
  end.

(** ** Rounding *)

(** [m * 2^e <= H], on integers. *)
Definition scaled_le (m e H : Z) : Prop :=
  m * 2 ^ Z.max e 0 <= H * 2 ^ Z.max (- e) 0.

(** [y] is [x] shifted right by [k] bits. *)
Definition shifted (k : Z) (x y : shr_record) : Prop :=
  0 <= shr_m y /\
  shr_m y * 2 ^ k <= shr_m x /\
  (shr_r y || shr_s y = true ->
   shr_m y * 2 ^ k < shr_m x \/ shr_r x || shr_s x = true).

(** A range of two floats, the upper one a binary64 value. *)
Definition fraction_typed (range : ScalarType * ScalarType) : Prop :=
  exists lo hi, range = (PyFloat lo, PyFloat hi) /\
                valid_binary prec emax hi = true.

(** ** Runs that raise *)

Definition never_raises {A : Type} (m : Rand A) : Prop :=
  forall t e t', run m t <> Some (Raised e, t').

(** ** Holes within the image *)

Definition lower_bound_fits (range : ScalarType * ScalarType)
    (dimension : Z) : Prop :=
  match fst range with
  | PyInt lo => lo <= dimension
  | PyFloat _ => True
  end.

Definition int_typed (range : ScalarType * ScalarType) : Prop :=
  exists a b, range = (PyInt a, PyInt b).

Definition hole_within (height width : Z) (hole : Hole) : Prop :=
  let '(x1, y1, x2, y2) := hole in
  (0 <= x1 /\ x1 <= x2 /\ x2 <= width) /\
  (0 <= y1 /\ y1 <= y2 /\ y2 <= height).

(** A hole is proper in a direction unless the size drawn for it is 0. *)
Definition proper_unless_zero (s : sample) : Prop :=
  let '(x1, y1, x2, y2) := hole_of_sample s in
  (x1 < x2 \/ s_width s = 0) /\ (y1 < y2 \/ s_height s = 0).

(** ** The law of the draws *)

(** The integers [lo, lo + 1, ...], [len] of them. *)
Fixpoint Zseq (lo : Z) (len : nat) : list Z :=
  match len with
  | O => []
  | S len' => lo :: Zseq (lo + 1) len'
  end.

Definition Qsum (l : list Q) : Q := fold_right Qplus 0%Q l.

Section Expectation.

(** [mean lo hi g]: the mean of [g f] for [f] uniform between [lo] and
    [hi]. *)
Variable mean : float -> float -> (float -> Q) -> Q.

(** Modelled from the spec: the draws of [random_utils.randint] are
    uniform, so an integer draw from [[lo, hi]] weighs each of its
    [hi - lo + 1] answers alike.  [expect m g] is the mean of [g] over
    the outcomes of [m]. *)
Fixpoint expect {A : Type} (m : Rand A) (g : outcome A -> Q) : Q :=
  match m with
  | Ret a => g (Returned a)
  | Raise e => g (Raised e)
  | RandInt lo hi k =>
      (Qsum (map (fun z => expect (k z) g)
                 (Zseq lo (Z.to_nat (hi - lo + 1))))
       / inject_Z (hi - lo + 1))%Q
  | Uniform lo hi k => mean lo hi (fun f => expect (k f) g)
  end.

End Expectation.

(** The chance of a returned value. *)
Definition returns_value (n : Z) (o : outcome Z) : Q :=
  match o with
  | Returned z => if z =? n then 1%Q else 0%Q
  | Raised _ => 0%Q
  end.

(** ** The order of the draws *)

(** The reading of C6: the third draw of a hole is its x coordinate
    and the fourth its y coordinate. *)
Definition x_before_y (s : sample) : sample :=
  {| s_height := s_height s; s_width := s_width s;
     s_y1 := s_x1 s; s_x1 := s_y1 s |}.

Definition drawn_x_before_y (self : CoarseDropout) (height width : Z)
  : Prop :=
  forall tape holes rest,
    run (get_params_dependent_on_targets self height width) tape
      = Some (Returned holes, rest) ->
    exists num_holes body ss,
      tape = DInt num_holes :: body /\
      read_samples (Z.to_nat num_holes) height width body = Some (ss, rest) /\
      holes = map (fun s => hole_of_sample (x_before_y s)) ss.

Definition one_hole_2x3 : CoarseDropout := {|
  num_holes_range := (1, 1);
  hole_height_range := (PyInt 2, PyInt 2);
  hole_width_range := (PyInt 3, PyInt 3);
  fill_value := FillColor (ColorScalar (PyInt 0));
  mask_fill_value := None
|}.

(** [size] is the floor of the exact value of the float product
    [dimension * f]. *)
Definition floor_of_product (dimension : Z) (f : float) (size : Z) : Prop :=
  exists p q, py_mul_int_float dimension f = Some p /\
              float_val p = Some q /\ size = Qfloor q.

Definition float_half : float := Eval vm_compute in float_lit 1 2.

(** ** Keypoints and holes, on exact values *)

(** The exact value of a finite number. *)
Definition num_val (x : ScalarType) : option Q :=
  match x with
  | PyInt z => Some (inject_Z z)
  | PyFloat f => float_val f
  end.

(** Containment as the spec words it, on exact values: [(px, py)] is
    inside [(x1, y1, x2, y2)] iff [x1 <= px < x2] and [y1 <= py < y2]. *)
Definition inside (keypoint : KeypointType) (hole : Hole) : Prop :=
  let '(x1, y1, x2, y2) := hole in
  exists px py,
    num_val (kp_x keypoint) = Some px /\ num_val (kp_y keypoint) = Some py /\
    (inject_Z x1 <= px /\ px < inject_Z x2)%Q /\
    (inject_Z y1 <= py /\ py < inject_Z y2)%Q.

(** The keypoints kept, as the spec words it: the subsequence, in input
    order, of the keypoints inside no hole. *)
Inductive kept (holes : list Hole)
  : list KeypointType -> list KeypointType -> Prop :=
| kept_nil : kept holes [] []
| kept_keep k ks r :
    (forall hole, In hole holes -> ~ inside k hole) ->
    kept holes ks r -> kept holes (k :: ks) (k :: r)
| kept_drop k ks r :
    (exists hole, In hole holes /\ inside k hole) ->
    kept holes ks r -> kept holes (k :: ks) r.

(** A keypoint whose coordinates have the exact values [x], [y]. *)
Definition at_point (keypoint : KeypointType) (x y : Z) : Prop :=
  exists px py,
    num_val (kp_x keypoint) = Some px /\ num_val (kp_y keypoint) = Some py /\
    (px == inject_Z x)%Q /\ (py == inject_Z y)%Q.

(** ** Schemas *)


(** The condition of C8, on the normalized ranges: a low above its
    high, a range that starts with a float and has a value outside
    [[0, 1]], or a hole count low below 1. *)
Definition low_exceeds_high (range : ScalarType * ScalarType) : Prop :=
  py_lt (snd range) (fst range) = true.

Definition fraction_out_of_unit (range : ScalarType * ScalarType) : Prop :=
  is_float (fst range) = true /\ InitSchema.all_in_unit range = false.

Definition claimed_error_condition (self : InitSchema.t) : Prop :=
  let s := InitSchema.normalize self in
  low_exceeds_high (InitSchema.int_range (InitSchema.num_holes_range s)) \/
  low_exceeds_high (InitSchema.hole_height_range s) \/
  low_exceeds_high (InitSchema.hole_width_range s) \/
  fraction_out_of_unit (InitSchema.hole_height_range s) \/
  fraction_out_of_unit (InitSchema.hole_width_range s) \/
  fst (InitSchema.num_holes_range s) < 1.

Definition raises (self : InitSchema.t) : Prop :=
  exists e, InitSchema.check_holes_and_dimensions self = Raised e.

(** No legacy maximum for the height, and the height range [(-1, 5)]. *)
Definition negative_height_low : InitSchema.t := {|
  InitSchema.min_holes := None;
  InitSchema.max_holes := Some 8;
  InitSchema.num_holes_range := (1, 1);
  InitSchema.min_height := None;
  InitSchema.max_height := None;
  InitSchema.hole_height_range := (PyInt (-1), PyInt 5);
  InitSchema.min_width := None;
  InitSchema.max_width := Some (PyInt 8);
  InitSchema.hole_width_range := (PyInt 8, PyInt 8);
  InitSchema.fill_value := FillColor (ColorScalar (PyInt 0));
  InitSchema.mask_fill_value := None
|}.

(** What makes [validate_range] raise: not [minimum <= low <= high], or a
    first element that is a float with a value outside [[0, 1]]. *)
Definition range_rejected (range : ScalarType * ScalarType) (minimum : Z)
  : Prop :=
  py_le (PyInt minimum) (fst range) = false \/
  py_le (fst range) (snd range) = false \/
  (is_float (fst range) = true /\ InitSchema.all_in_unit range = false).

(** ** Ranges of one type *)

(** A range of one type, as the spec has it. *)
Inductive typed_range : Type :=
| IntRange (low high : Z)
| FractionRange (low high : float).

Definition scalars (r : typed_range) : ScalarType * ScalarType :=
  match r with
  | IntRange low high => (PyInt low, PyInt high)
  | FractionRange low high => (PyFloat low, PyFloat high)
  end.

(** The rule of the spec for a range, by the type of the range: an integer
    range is clamped to the dimension and the size drawn from
    [[low, clamped_high]]; a fraction range has a fraction [f] drawn in
    [[low, high]] and the size is [floor(dimension * f)]. *)
Definition sized_by_own_type (dimension : Z) (r : typed_range)
    (d : draw) (size : Z) : Prop :=
  match r with
  | IntRange low high =>
      d = DInt size /\ low <= size <= Z.min high dimension
  | FractionRange low high =>
      exists f, d = DFloat f /\ float_answer_ok low high f = true /\
                floor_of_product dimension f size
  end.

Definition each_by_own_type (height width : Z) (rh rw : typed_range)
  : Prop :=
  forall t hh hw t',
    run (calculate_hole_dimensions height width (scalars rh) (scalars rw)) t
      = Some (Returned (hh, hw), t') ->
    exists dh dw, t = dh :: dw :: t' /\
      sized_by_own_type height rh dh hh /\
      sized_by_own_type width rw dw hw.

Definition float_two : float := Eval vm_compute in float_lit 2 1.

(** ** A range that starts with an integer and ends with a float *)

Definition float_7_10 : float := Eval vm_compute in float_lit 7 10.
Definition float_15_2 : float := Eval vm_compute in float_lit 15 2.

(** The reading of C10 for the width: with the width range
    [(a, b)], [a] an integer and [b] a float, the width is an integer
    draw. *)
Definition width_treated_as_integer (height width : Z)
    (hr : ScalarType * ScalarType) (a : Z) (b : float) : Prop :=
  forall t hh hw t',
    run (calculate_hole_dimensions height width hr (PyInt a, PyFloat b)) t
      = Some (Returned (hh, hw), t') ->
    exists dh, t = dh :: DInt hw :: t'.

(** ** Inputs of the concrete runs *)

Definition two_holes : CoarseDropout := {|
  num_holes_range := (1, 2);
  hole_height_range := (PyInt 2, PyInt 4);
  hole_width_range := (PyInt 3, PyInt 30);
  fill_value := FillColor (ColorScalar (PyInt 0));
  mask_fill_value := None
|}.

Definition two_holes_tape : list draw :=
  [DInt 2; DInt 3; DInt 12; DInt 5; DInt 0; DInt 2; DInt 3; DInt 1; DInt 2].

Definition keypoint_at (x y : Z) : KeypointType :=
  {| kp_x := PyInt x; kp_y := PyInt y; kp_rest := [] |}.

(** ** The targets dictionary *)

Module Params.

(** An array, as far as the sampler reads it: its shape. *)
Record array : Type := { shape : list Z }.

(** [params: Dict[str, Any]]: the targets by name, first entry first. *)
Definition t : Type := list (string * array).

Inductive error : Type :=
| KeyError (key : string)
| ValueError_unpack (expected got : nat).

(** [params[key]]. *)
Fixpoint getitem (params : t) (key : string) : error + array :=
  match params with
  | [] => inl (KeyError key)
  | (k, v) :: params' =>
      if String.eqb k key then inr v else getitem params' key
  end.

(** [height, width = shape[:2]]. *)
Definition unpack_two (shape : list Z) : error + Z * Z :=
  match firstn 2 shape with
  | [height; width] => inr (height, width)
  | l => inl (ValueError_unpack 2 (List.length l))
  end.

(** The method as it is called, with the targets dictionary: the lookup
    and the unpacking come before the first draw, and the holes are
    returned under the key ["holes"]. *)
Definition get_params_dependent_on_targets (self : CoarseDropout)
    (params : t) : error + Rand (list (string * list Hole)) :=
  match getitem params "image" with
  | inl e => inl e
  | inr img =>
      match unpack_two (shape img) with
      | inl e => inl e
      | inr (height, width) =>
          inr (holes <- get_params_dependent_on_targets self height width ;;
               Ret [("holes"%string, holes)])
      end
  end.

Definition targets_as_params : list string := ["image"%string].

End Params.

(** ** Outcomes of runs *)

(** Every run that completes ends in the exception [e]. *)
Definition raises_on_every_run {A : Type} (e : exn) (m : Rand A) : Prop :=
  forall t o t', run m t = Some (o, t') -> o = Raised e.

(** Every run that completes ends in an exception. *)
Definition always_raises {A : Type} (m : Rand A) : Prop :=
  forall t o t', run m t = Some (o, t') -> exists e, o = Raised e.

(** ** Sizes of holes *)

Definition hole_height (hole : Hole) : Z :=
  let '(_, y1, _, y2) := hole in y2 - y1.

Definition hole_width (hole : Hole) : Z :=
  let '(x1, _, x2, _) := hole in x2 - x1.

(** ** Numbers that are not finite *)

Definition not_finite (x : ScalarType) : Prop :=
  match x with
  | PyFloat S754_nan => True
  | PyFloat (S754_infinity _) => True
  | _ => False
  end.

Definition is_nan (x : ScalarType) : Prop := x = PyFloat S754_nan.

(** ** Rounding from below *)

(** [H <= m * 2^e], on integers. *)
Definition scaled_ge (m e H : Z) : Prop :=
  H * 2 ^ Z.max (- e) 0 <= m * 2 ^ Z.max e 0.

(** ** Checks of a range *)

(** [minimum <= low <= high] holds of a range. *)
Definition in_order (minimum : Z) (range : ScalarType * ScalarType) : Prop :=
  InitSchema.chain_le (PyInt minimum) (fst range) (snd range) = true.

(** The hole count range of a schema is in order, from 1. *)
Definition count_in_order (self : InitSchema.t) : Prop :=
  1 <= fst (InitSchema.num_holes_range self)
    <= snd (InitSchema.num_holes_range self).

(** The defaults, with the legacy maximum of the hole count given. *)
Definition with_max_holes (max_holes : option Z) : InitSchema.t := {|
  InitSchema.min_holes := None;
  InitSchema.max_holes := max_holes;
  InitSchema.num_holes_range := (1, 1);
  InitSchema.min_height := None;
  InitSchema.max_height := Some (PyInt 8);
  InitSchema.hole_height_range := (PyInt 8, PyInt 8);
  InitSchema.min_width := None;
  InitSchema.max_width := Some (PyInt 8);
  InitSchema.hole_width_range := (PyInt 8, PyInt 8);
  InitSchema.fill_value := FillColor (ColorScalar (PyInt 0));
  InitSchema.mask_fill_value := None
|}.

(** No legacy maxima, and ranges of the caller's. *)
Definition ranges_only (nh : Z * Z) (hh hw : ScalarType * ScalarType)
  : InitSchema.t := {|
  InitSchema.min_holes := None;
  InitSchema.max_holes := None;
  InitSchema.num_holes_range := nh;
  InitSchema.min_height := None;
  InitSchema.max_height := None;
  InitSchema.hole_height_range := hh;
  InitSchema.min_width := None;
  InitSchema.max_width := None;
  InitSchema.hole_width_range := hw;
  InitSchema.fill_value := FillColor (ColorScalar (PyInt 0));
  InitSchema.mask_fill_value := None
|}.

(** Holes at least 50 pixels high. *)
Definition tall_holes : CoarseDropout := {|
  num_holes_range := (1, 2);
  hole_height_range := (PyInt 50, PyInt 60);
  hole_width_range := (PyInt 3, PyInt 30);
  fill_value := FillColor (ColorScalar (PyInt 0));
  mask_fill_value := None
|}.

Definition float_eight : float := Eval vm_compute in float_lit 8 1.

(** What [CoarseDropout(max_holes=1, max_height=0.5)] comes to: the
    height range is the fraction range [(0.5, 0.5)], the width range the
    default [(8, 8)]. *)
Definition half_height_only : InitSchema.t := {|
  InitSchema.min_holes := None;
  InitSchema.max_holes := Some 1;
  InitSchema.num_holes_range := (1, 1);
  InitSchema.min_height := None;
  InitSchema.max_height := Some (PyFloat float_half);
  InitSchema.hole_height_range := (PyInt 8, PyInt 8);
  InitSchema.min_width := None;
  InitSchema.max_width := Some (PyInt 8);
  InitSchema.hole_width_range := (PyInt 8, PyInt 8);
  InitSchema.fill_value := FillColor (ColorScalar (PyInt 0));
  InitSchema.mask_fill_value := None
|}.

(** ** The holes that can be drawn *)

(** The four draws that make a hole: its height, its width, [y1],
    [x1]. *)
Definition draws_of_hole (hole : Hole) : list draw :=
  let '(x1, y1, x2, y2) := hole in
  [DInt (y2 - y1); DInt (x2 - x1); DInt y1; DInt x1].

(** A hole within the image whose height is in [[a, min(b, height)]] and
    whose width is in [[c, min(d, width)]]. *)
Definition admissible (height width a b c d : Z) (hole : Hole) : Prop :=
  let '(x1, y1, x2, y2) := hole in
  a <= y2 - y1 <= Z.min b height /\ c <= x2 - x1 <= Z.min d width /\
  0 <= y1 /\ y2 <= height /\ 0 <= x1 /\ x2 <= width.

(** Fractions of 1 for both sizes. *)
Definition whole_image : CoarseDropout := {|
  num_holes_range := (1, 2);
  hole_height_range := (PyFloat float_one, PyFloat float_one);
  hole_width_range := (PyFloat float_one, PyFloat float_one);
  fill_value := FillColor (ColorScalar (PyInt 0));
  mask_fill_value := None
|}.

(** ** The corner of a hole *)

(** The reading of C1 for the corner: whatever sizes are drawn, the
    intervals [[0, height - hole_height]] and [[0, width - hole_width]]
    the corner is drawn from are not empty. *)
Definition corner_intervals_nonempty (self : CoarseDropout)
    (height width : Z) : Prop :=
  forall t hh hw t',
    run (calculate_hole_dimensions height width
           (hole_height_range self) (hole_width_range self)) t
      = Some (Returned (hh, hw), t') ->
    hh <= height /\ hw <= width.

(** One hole, half the image high and 2 pixels wide. *)
Definition half_high_two_wide : CoarseDropout := {|
  num_holes_range := (1, 1);
  hole_height_range := (PyFloat float_half, PyFloat float_half);
  hole_width_range := (PyInt 2, PyInt 2);
  fill_value := FillColor (ColorScalar (PyInt 0));
  mask_fill_value := None
|}.

(** * Facts *)

Section RunFacts.

Context {A B : Type}.

Lemma run_bind (m : Rand A) (f : A -> Rand B) (t : list draw) :
  run (bind m f) t =
  match run m t with
  | Some (Returned a, t') => run (f a) t'
  | Some (Raised e, t') => Some (Raised e, t')
  | None => None
  end.
Proof.
  revert t. induction m as [a | e | lo hi k IH | lo hi k IH]; intros t; simpl.
  - reflexivity.
  - reflexivity.
  - destruct t as [| [z | x] rest]; try reflexivity.
    destruct (int_answer_ok lo hi z); [apply IH | reflexivity].
  - destruct t as [| [z | x] rest]; try reflexivity.
    destruct (float_answer_ok lo hi x); [apply IH | reflexivity].
Qed.

Lemma run_bind_returned (m : Rand A) (f : A -> Rand B) t b t' :
  run (bind m f) t = Some (Returned b, t') ->
  exists a t1, run m t = Some (Returned a, t1) /\
               run (f a) t1 = Some (Returned b, t').
Proof.
  rewrite run_bind.
  destruct (run m t) as [[[a | e] t1] |]; intros H; try discriminate.
  exists a, t1. split; [reflexivity | exact H].
Qed.

Lemma run_bind_raised (m : Rand A) (f : A -> Rand B) t e t' :
  run (bind m f) t = Some (Raised e, t') ->
  run m t = Some (Raised e, t') \/
  exists a t1, run m t = Some (Returned a, t1) /\
               run (f a) t1 = Some (Raised e, t').
Proof.
  rewrite run_bind.
  destruct (run m t) as [[[a | e0] t1] |]; intros H; try discriminate.
  - right. exists a, t1. split; [reflexivity | exact H].
  - left. injection H as -> ->. reflexivity.
Qed.

End RunFacts.

Lemma run_randint_returned low high t z t' :
  run (randint low high) t = Some (Returned z, t') ->
  exists lo hi, int_of_scalar low = Some lo /\ int_of_scalar high = Some hi /\
                lo <= z < hi /\ t = DInt z :: t'.
Proof.
  unfold randint.
  destruct (int_of_scalar low) as [lo |]; [| discriminate].
  destruct (int_of_scalar high) as [hi |]; [| discriminate].
  destruct (lo <? hi) eqn:E; [| discriminate]. simpl.
  destruct t as [| [y | x] rest]; try discriminate.
  unfold int_answer_ok.
  destruct (lo <=? y) eqn:E1; [| discriminate].
  destruct (y <=? hi - 1) eqn:E2; [| discriminate]. simpl.
  intros H. injection H as -> ->.
  exists lo, hi. repeat split; try reflexivity; lia.
Qed.

Lemma run_randint_ok lo hi z t :
  lo <= z < hi ->
  run (randint (PyInt lo) (PyInt hi)) (DInt z :: t) = Some (Returned z, t).
Proof.
  intros H. unfold randint. simpl.
  destruct (Z.ltb_spec lo hi); [| lia]. simpl. unfold int_answer_ok.
  destruct (Z.leb_spec lo z); [| lia].
  destruct (Z.leb_spec z (hi - 1)); [| lia]. reflexivity.
Qed.

Lemma run_uniform_returned low high t f t' :
  run (uniform low high) t = Some (Returned f, t') ->
  exists lo hi, to_float low = Some lo /\ to_float high = Some hi /\
                float_answer_ok lo hi f = true /\ t = DFloat f :: t'.
Proof.
  unfold uniform.
  destruct (to_float low) as [lo |]; [| discriminate].
  destruct (to_float high) as [hi |]; [| discriminate]. simpl.
  destruct t as [| [y | x] rest]; try discriminate.
  destruct (float_answer_ok lo hi x) eqn:E; [| discriminate].
  intros H. injection H as -> ->.
  exists lo, hi. repeat split; try reflexivity. exact E.
Qed.

Lemma run_int_of_product_returned dimension f t z t' :
  run (int_of_product dimension f) t = Some (Returned z, t') ->
  draw_size dimension (DFloat f) = Some z /\ t = t'.
Proof.
  unfold int_of_product, draw_size.
  destruct (py_mul_int_float dimension f) as [p |]; [| discriminate].
  destruct (py_int p) as [y |]; [| discriminate]. simpl.
  intros H. injection H as -> ->. split; reflexivity.
Qed.

Lemma run_uniform_ok lo hi f t :
  float_answer_ok lo hi f = true ->
  run (uniform (PyFloat lo) (PyFloat hi)) (DFloat f :: t)
    = Some (Returned f, t).
Proof. intros H. simpl. rewrite H. reflexivity. Qed.

Lemma run_int_of_product_ok dimension f z t :
  draw_size dimension (DFloat f) = Some z ->
  run (int_of_product dimension f) t = Some (Returned z, t).
Proof.
  unfold int_of_product. simpl.
  destruct (py_mul_int_float dimension f) as [p |]; [| discriminate].
  intros ->. reflexivity.
Qed.

(** ** Runs of the sampler *)

Lemma int_drawn_size low high d size dimension :
  int_drawn low high d size -> draw_size dimension d = Some size.
Proof. intros [-> _]. reflexivity. Qed.

Lemma fraction_drawn_size dimension low high d size :
  fraction_drawn dimension low high d size ->
  draw_size dimension d = Some size.
Proof. intros (f & lo & hi & _ & _ & _ & _ & H). exact H. Qed.

Lemma run_calculate_hole_dimensions_returned height width hr wr t hh hw t' :
  run (calculate_hole_dimensions height width hr wr) t
    = Some (Returned (hh, hw), t') ->
  exists dh dw, t = dh :: dw :: t' /\
    if is_int (fst hr) then
      int_drawn (fst hr) (py_succ (py_min (snd hr) (PyInt height))) dh hh /\
      int_drawn (fst wr) (py_succ (py_min (snd wr) (PyInt width))) dw hw
    else
      fraction_drawn height (fst hr) (snd hr) dh hh /\
      fraction_drawn width (fst wr) (snd wr) dw hw.
Proof.
  unfold calculate_hole_dimensions.
  destruct (is_int (fst hr)); intros H.
  - apply run_bind_returned in H. destruct H as (z1 & t1 & H1 & H).
    apply run_bind_returned in H. destruct H as (z2 & t2 & H2 & H).
    simpl in H. injection H as -> -> ->.
    apply run_randint_returned in H1.
    destruct H1 as (lo1 & hi1 & L1 & U1 & R1 & ->).
    apply run_randint_returned in H2.
    destruct H2 as (lo2 & hi2 & L2 & U2 & R2 & ->).
    exists (DInt hh), (DInt hw). split; [reflexivity |].
    split; (split; [reflexivity |]); eauto.
  - apply run_bind_returned in H. destruct H as (f1 & t1 & H1 & H).
    apply run_bind_returned in H. destruct H as (z1 & t2 & P1 & H).
    apply run_bind_returned in H. destruct H as (f2 & t3 & H2 & H).
    apply run_bind_returned in H. destruct H as (z2 & t4 & P2 & H).
    simpl in H. injection H as -> -> ->.
    apply run_uniform_returned in H1.
    destruct H1 as (lo1 & hi1 & L1 & U1 & R1 & ->).
    apply run_int_of_product_returned in P1. destruct P1 as [P1 ->].
    apply run_uniform_returned in H2.
    destruct H2 as (lo2 & hi2 & L2 & U2 & R2 & ->).
    apply run_int_of_product_returned in P2. destruct P2 as [P2 ->].
    exists (DFloat f1), (DFloat f2). split; [reflexivity |].
    split.
    + exists f1, lo1, hi1. auto.
    + exists f2, lo2, hi2. auto.
Qed.

Lemma run_calculate_hole_dimensions_sizes height width hr wr t hh hw t' :
  run (calculate_hole_dimensions height width hr wr) t
    = Some (Returned (hh, hw), t') ->
  exists dh dw, t = dh :: dw :: t' /\
    draw_size height dh = Some hh /\ draw_size width dw = Some hw.
Proof.
  intros H. apply run_calculate_hole_dimensions_returned in H.
  destruct H as (dh & dw & -> & H). exists dh, dw. split; [reflexivity |].
  destruct (is_int (fst hr)); destruct H as [H1 H2].
  - split; eapply int_drawn_size; eassumption.
  - split; eapply fraction_drawn_size; eassumption.
Qed.

Section LoopRuns.

Variables (height width : Z) (hr wr : ScalarType * ScalarType).

(** Any property of the sizes that every run of
    [calculate_hole_dimensions] establishes. *)
Variable P : Z -> Z -> Prop.
Hypothesis P_sizes : forall t hh hw t',
  run (calculate_hole_dimensions height width hr wr) t
    = Some (Returned (hh, hw), t') -> P hh hw.

Lemma run_holes_loop_returned n : forall acc t holes t',
  run (holes_loop n height width hr wr acc) t = Some (Returned holes, t') ->
  exists ss, read_samples n height width t = Some (ss, t') /\
    holes = acc ++ map hole_of_sample ss /\
    Forall (fun s => P (s_height s) (s_width s) /\
                     corner_fits height width s) ss.
Proof.
  induction n as [| n IH]; intros acc t holes t' H.
  - simpl in H. injection H as -> ->. exists []. simpl.
    rewrite app_nil_r. auto.
  - simpl in H.
    apply run_bind_returned in H. destruct H as ([hh hw] & t1 & D & H).
    apply run_bind_returned in H. destruct H as (y1 & t2 & Y & H).
    apply run_bind_returned in H. destruct H as (x1 & t3 & X & H).
    pose proof (P_sizes _ _ _ _ D) as HP.
    apply run_calculate_hole_dimensions_sizes in D.
    destruct D as (dh & dw & -> & Sh & Sw).
    apply run_randint_returned in Y.
    destruct Y as (ly & uy & Ly & Uy & Ry & ->).
    apply run_randint_returned in X.
    destruct X as (lx & ux & Lx & Ux & Rx & ->).
    simpl in Ly, Uy, Lx, Ux.
    injection Ly as <-. injection Uy as <-.
    injection Lx as <-. injection Ux as <-.
    apply IH in H. destruct H as (ss & R & -> & F).
    exists ({| s_height := hh; s_width := hw; s_y1 := y1; s_x1 := x1 |}
              :: ss).
    simpl. rewrite Sh, Sw, R. split; [reflexivity |]. split.
    + rewrite <- app_assoc. reflexivity.
    + constructor; [| exact F]. split; [exact HP |].
      unfold corner_fits. simpl. lia.
Qed.

End LoopRuns.

Lemma read_samples_length n height width : forall t ss t',
  read_samples n height width t = Some (ss, t') -> List.length ss = n.
Proof.
  induction n as [| n IH]; intros t ss t' H; simpl in H.
  - injection H as <- _. reflexivity.
  - destruct t as [| dh [| dw [| [y |] [| [x |] rest]]]]; try discriminate.
    destruct (draw_size height dh); [| discriminate].
    destruct (draw_size width dw); [| discriminate].
    destruct (read_samples n height width rest) as [[ss0 r0] |] eqn:E;
      [| discriminate].
    injection H as <- _. simpl. f_equal. eapply IH. exact E.
Qed.

(** ** Signs of floats *)

Lemma trunc_mag_nonneg m e : 0 <= trunc_mag m e.
Proof.
  unfold trunc_mag. destruct (0 <=? e) eqn:E.
  - apply Z.leb_le in E.
    apply Z.mul_nonneg_nonneg; [lia | apply Z.pow_nonneg; lia].
  - apply Z.leb_gt in E. apply Z.div_pos; [lia |].
    apply Z.pow_pos_nonneg; lia.
Qed.

Lemma py_int_not_negative f z :
  not_negative f = true -> py_int f = Some z -> 0 <= z.
Proof.
  destruct f as [s | s | | s m e]; simpl; intros N H; try discriminate.
  - injection H as <-. lia.
  - destruct s; [discriminate |]. injection H as <-. apply trunc_mag_nonneg.
Qed.

Lemma binary_round_aux_not_negative mx ex lx :
  not_negative (binary_round_aux prec emax false mx ex lx) = true.
Proof.
  unfold binary_round_aux.
  destruct (shr_fexp prec emax mx ex lx) as [mrs' e'].
  destruct (shr_fexp prec emax _ e' loc_Exact) as [mrs'' e''].
  destruct (shr_m mrs'') as [| m | m]; try reflexivity.
  destruct (e'' <=? emax - prec); reflexivity.
Qed.

Lemma float_of_int_not_negative z f :
  0 <= z -> float_of_int z = Some f -> not_negative f = true.
Proof.
  intros Hz. unfold float_of_int.
  destruct z as [| p | p]; [| | lia].
  - simpl. intros H. injection H as <-. reflexivity.
  - unfold binary_normalize, binary_round.
    destruct (shl_align p 0 _) as [mz ez].
    pose proof (binary_round_aux_not_negative (Z.pos mz) ez loc_Exact) as N.
    destruct (binary_round_aux prec emax false (Z.pos mz) ez loc_Exact);
      intros H; try discriminate; injection H as <-; exact N.
Qed.

Lemma SFmul_not_negative a b :
  not_negative a = true -> not_negative b = true ->
  not_negative (SFmul prec emax a b) = true.
Proof.
  destruct a as [sa | sa | | sa ma ea], b as [sb | sb | | sb mb eb];
    simpl; try reflexivity;
    try (destruct sa; try discriminate); try (destruct sb; try discriminate);
    intros _ _; try reflexivity.
  all: try (destruct sa; reflexivity); try (destruct sb; reflexivity).
  apply binary_round_aux_not_negative.
Qed.

Lemma SFleb_not_negative lo f :
  not_negative lo = true -> SFleb lo f = true -> not_negative f = true.
Proof.
  unfold SFleb.
  destruct lo as [sa | sa | | sa ma ea], f as [sb | sb | | sb mb eb];
    simpl; try reflexivity; try discriminate;
    try (destruct sa; try discriminate); try (destruct sb; try discriminate);
    try reflexivity; intros _ H; try discriminate; try reflexivity.
Qed.

Lemma py_le_zero_float f :
  py_le (PyInt 0) (PyFloat f) = true -> not_negative f = true.
Proof.
  unfold py_le. simpl.
  destruct f as [s | s | | s m e]; simpl; try reflexivity.
  - destruct s; [discriminate | reflexivity].
  - destruct s; [| reflexivity].
    destruct (0 <=? e) eqn:E.
    + apply Z.leb_le in E.
      assert (Z.neg m * 2 ^ e < 0)
        by (apply Z.mul_neg_pos; [lia | apply Z.pow_pos_nonneg; lia]).
      destruct (Z.neg m * 2 ^ e) eqn:C; [lia | lia | discriminate].
    + simpl. discriminate.
Qed.

Lemma py_le_int a b : py_le (PyInt a) (PyInt b) = (a <=? b).
Proof.
  cbv [py_le py_compare]. unfold Z.leb. destruct (a ?= b); reflexivity.
Qed.

Lemma py_lt_int a b : py_lt (PyInt a) (PyInt b) = (a <? b).
Proof.
  cbv [py_lt py_compare]. unfold Z.ltb. destruct (a ?= b); reflexivity.
Qed.

(** [int] of a number that is at least zero is at least zero. *)
Lemma int_of_scalar_nonneg x z :
  py_le (PyInt 0) x = true -> int_of_scalar x = Some z -> 0 <= z.
Proof.
  destruct x as [y | f].
  - rewrite py_le_int. intros H E. injection E as <-.
    apply Z.leb_le. exact H.
  - intros H. apply py_int_not_negative. apply py_le_zero_float. exact H.
Qed.

Lemma to_float_not_negative x f :
  py_le (PyInt 0) x = true -> to_float x = Some f -> not_negative f = true.
Proof.
  destruct x as [y | g].
  - rewrite py_le_int. intros H. apply float_of_int_not_negative.
    apply Z.leb_le. exact H.
  - intros H E. injection E as <-. apply py_le_zero_float. exact H.
Qed.

Lemma draw_size_float_nonneg dimension f z :
  0 <= dimension -> not_negative f = true ->
  draw_size dimension (DFloat f) = Some z -> 0 <= z.
Proof.
  intros Hd Hf. simpl. unfold py_mul_int_float.
  destruct (float_of_int dimension) as [df |] eqn:E; [| discriminate].
  apply py_int_not_negative. apply SFmul_not_negative; [| exact Hf].
  eapply float_of_int_not_negative; eassumption.
Qed.

Lemma int_drawn_nonneg low high d size :
  py_le (PyInt 0) low = true -> int_drawn low high d size -> 0 <= size.
Proof.
  intros H (_ & lo & hi & L & _ & R).
  pose proof (int_of_scalar_nonneg _ _ H L). lia.
Qed.

Lemma fraction_drawn_nonneg dimension low high d size :
  0 <= dimension -> py_le (PyInt 0) low = true ->
  fraction_drawn dimension low high d size -> 0 <= size.
Proof.
  intros Hd H (f & lo & hi & -> & L & _ & Ok & S).
  apply (draw_size_float_nonneg dimension f); [exact Hd | | exact S].
  unfold float_answer_ok in Ok.
  apply andb_true_iff in Ok. destruct Ok as [Ok _].
  apply andb_true_iff in Ok. destruct Ok as [_ Ok].
  eapply SFleb_not_negative; [| exact Ok].
  eapply to_float_not_negative; eassumption.
Qed.

Lemma sizes_nonneg height width hr wr t hh hw t' :
  0 <= height -> 0 <= width ->
  py_le (PyInt 0) (fst hr) = true -> py_le (PyInt 0) (fst wr) = true ->
  run (calculate_hole_dimensions height width hr wr) t
    = Some (Returned (hh, hw), t') ->
  0 <= hh /\ 0 <= hw.
Proof.
  intros Hh Hw L1 L2 H.
  apply run_calculate_hole_dimensions_returned in H.
  destruct H as (dh & dw & _ & H).
  destruct (is_int (fst hr)); destruct H as [H1 H2]; split.
  - exact (int_drawn_nonneg _ _ _ _ L1 H1).
  - exact (int_drawn_nonneg _ _ _ _ L2 H2).
  - exact (fraction_drawn_nonneg _ _ _ _ _ Hh L1 H1).
  - exact (fraction_drawn_nonneg _ _ _ _ _ Hw L2 H2).
Qed.

(** ** What validation gives *)

Lemma validate_range_returned range_value range_name minimum :
  InitSchema.validate_range range_value range_name minimum = Returned tt <->
  InitSchema.chain_le (PyInt minimum) (fst range_value) (snd range_value)
    = true /\
  (is_float (fst range_value) = true ->
   InitSchema.all_in_unit range_value = true).
Proof.
  unfold InitSchema.validate_range.
  destruct (InitSchema.chain_le _ _ _); simpl.
  - destruct (is_float (fst range_value)); simpl.
    + destruct (InitSchema.all_in_unit range_value); simpl.
      * split; auto.
      * split; [discriminate |]. intros [_ H]. discriminate (H eq_refl).
    + split; [| reflexivity]. intros _. split; [reflexivity | discriminate].
  - split; [discriminate |]. intros [H _]. discriminate H.
Qed.

Lemma validate_range_low range_value range_name minimum :
  InitSchema.validate_range range_value range_name minimum = Returned tt ->
  py_le (PyInt minimum) (fst range_value) = true /\
  py_le (fst range_value) (snd range_value) = true.
Proof.
  intros H. apply validate_range_returned in H. destruct H as [H _].
  unfold InitSchema.chain_le in H. apply andb_true_iff in H. exact H.
Qed.

(** ** Runs that raise *)

Lemma never_raises_bind {A B : Type} (m : Rand A) (f : A -> Rand B) :
  never_raises m ->
  (forall t a t1, run m t = Some (Returned a, t1) -> never_raises (f a)) ->
  never_raises (bind m f).
Proof.
  intros Hm Hf t e t' H. apply run_bind_raised in H.
  destruct H as [H | (a & t1 & H1 & H2)].
  - exact (Hm _ _ _ H).
  - exact (Hf _ _ _ H1 _ _ _ H2).
Qed.

Lemma never_raises_randint lo hi :
  lo < hi -> never_raises (randint (PyInt lo) (PyInt hi)).
Proof.
  intros H t e t'. unfold randint. simpl.
  destruct (Z.ltb_spec lo hi); [| lia]. simpl.
  destruct t as [| [z | x] rest]; try discriminate.
  destruct (int_answer_ok lo (hi - 1) z); discriminate.
Qed.

Lemma py_min_int a b : py_min (PyInt a) (PyInt b) = PyInt (Z.min a b).
Proof.
  unfold py_min. rewrite py_lt_int.
  destruct (Z.ltb_spec b a); f_equal; lia.
Qed.

(** The integer branch, both ranges made of integers. *)
Lemma int_branch_sizes height width a b c d t hh hw t' :
  run (calculate_hole_dimensions height width
         (PyInt a, PyInt b) (PyInt c, PyInt d)) t
    = Some (Returned (hh, hw), t') ->
  t = DInt hh :: DInt hw :: t' /\
  a <= hh <= Z.min b height /\ c <= hw <= Z.min d width.
Proof.
  intros H. apply run_calculate_hole_dimensions_returned in H.
  destruct H as (dh & dw & -> & H). simpl in H.
  rewrite !py_min_int in H. simpl in H.
  destruct H as [(-> & l1 & h1 & L1 & U1 & R1) (-> & l2 & h2 & L2 & U2 & R2)].
  simpl in L1, U1, L2, U2.
  injection L1 as <-. injection U1 as <-.
  injection L2 as <-. injection U2 as <-.
  repeat split; lia.
Qed.

Lemma int_branch_never_raises height width a b c d :
  a <= b -> a <= height -> c <= d -> c <= width ->
  never_raises (calculate_hole_dimensions height width
                  (PyInt a, PyInt b) (PyInt c, PyInt d)).
Proof.
  intros. unfold calculate_hole_dimensions. simpl.
  rewrite !py_min_int. simpl.
  apply never_raises_bind; [apply never_raises_randint; lia |].
  intros _ hh _ _.
  apply never_raises_bind; [apply never_raises_randint; lia |].
  intros _ hw _ _ t e t'. discriminate.
Qed.

Lemma int_loop_never_raises height width a b c d n :
  a <= b -> a <= height -> c <= d -> c <= width ->
  forall acc,
    never_raises (holes_loop n height width
                    (PyInt a, PyInt b) (PyInt c, PyInt d) acc).
Proof.
  intros Hab Hah Hcd Hcw.
  induction n as [| n IH]; intros acc.
  - intros t e t'. discriminate.
  - simpl. apply never_raises_bind.
    + apply int_branch_never_raises; assumption.
    + intros t [hh hw] t1 D. apply int_branch_sizes in D.
      destruct D as (_ & Rh & Rw).
      apply never_raises_bind; [apply never_raises_randint; lia |].
      intros _ y1 _ _.
      apply never_raises_bind; [apply never_raises_randint; lia |].
      intros _ x1 _ _. apply IH.
Qed.

(** A run that draws the least size and the corner [(0, 0)] every time. *)
Lemma int_loop_least_run height width a b c d n :
  a <= b -> 0 <= a <= height -> c <= d -> 0 <= c <= width ->
  forall acc t,
    run (holes_loop n height width (PyInt a, PyInt b) (PyInt c, PyInt d) acc)
        (concat (repeat [DInt a; DInt c; DInt 0; DInt 0] n) ++ t)
    = Some (Returned (acc ++ repeat (0, 0, 0 + c, 0 + a) n), t).
Proof.
  intros Hab Hah Hcd Hcw.
  induction n as [| n IH]; intros acc t.
  - simpl. rewrite app_nil_r. reflexivity.
  - cbn [repeat concat holes_loop]. rewrite run_bind.
    unfold calculate_hole_dimensions. cbn [fst snd is_int].
    rewrite !py_min_int. cbn [py_succ].
    rewrite run_bind. cbn [app].
    rewrite run_randint_ok by lia.
    rewrite run_bind, run_randint_ok by lia. cbn [run].
    rewrite run_bind, run_randint_ok by lia.
    rewrite run_bind, run_randint_ok by lia.
    rewrite IH. rewrite <- app_assoc. reflexivity.
Qed.

Section SamplerRuns.

Variables (self : CoarseDropout) (height width : Z).

Variable P : Z -> Z -> Prop.
Hypothesis P_sizes : forall t hh hw t',
  run (calculate_hole_dimensions height width
         (hole_height_range self) (hole_width_range self)) t
    = Some (Returned (hh, hw), t') -> P hh hw.

(** A run that returns reads the hole count and then, hole after hole,
    four draws off the tape. *)
Lemma run_sampler_returned tape holes rest :
  run (get_params_dependent_on_targets self height width) tape
    = Some (Returned holes, rest) ->
  exists num_holes body ss,
    tape = DInt num_holes :: body /\
    fst (num_holes_range self) <= num_holes <= snd (num_holes_range self) /\
    read_samples (Z.to_nat num_holes) height width body = Some (ss, rest) /\
    holes = map hole_of_sample ss /\
    Forall (fun s => P (s_height s) (s_width s) /\
                     corner_fits height width s) ss.
Proof.
  unfold get_params_dependent_on_targets. intros H.
  apply run_bind_returned in H. destruct H as (n & t1 & N & H).
  apply run_randint_returned in N.
  destruct N as (lo & hi & L & U & R & ->).
  simpl in L, U. injection L as <-. injection U as <-.
  apply (run_holes_loop_returned _ _ _ _ P P_sizes) in H.
  destruct H as (ss & RS & -> & F).
  exists n, t1, ss. repeat split; try assumption; lia.
Qed.

End SamplerRuns.

(** ** Rounding a product that is at most an integer *)

Lemma digits2_pos_lower p : 2 ^ (Z.pos (digits2_pos p) - 1) <= Z.pos p.
Proof.
  induction p as [p IH | p IH |]; cbn [digits2_pos].
  - rewrite Pos2Z.inj_succ. replace (Z.succ (Z.pos (digits2_pos p)) - 1)
      with (Z.succ (Z.pos (digits2_pos p) - 1)) by lia.
    rewrite Z.pow_succ_r by lia. lia.
  - rewrite Pos2Z.inj_succ. replace (Z.succ (Z.pos (digits2_pos p)) - 1)
      with (Z.succ (Z.pos (digits2_pos p) - 1)) by lia.
    rewrite Z.pow_succ_r by lia. lia.
  - simpl. lia.
Qed.

Lemma digits2_pos_upper p : Z.pos p < 2 ^ Z.pos (digits2_pos p).
Proof.
  induction p as [p IH | p IH |]; cbn [digits2_pos].
  - rewrite Pos2Z.inj_succ, Z.pow_succ_r by lia. lia.
  - rewrite Pos2Z.inj_succ, Z.pow_succ_r by lia. lia.
  - simpl. lia.
Qed.

Lemma shr_1_shifted x : 0 <= shr_m x -> shifted 1 x (shr_1 x).
Proof.
  destruct x as [m r s]. cbn [shr_m]. intros Hm. unfold shifted, shr_1.
  change (2 ^ 1) with 2.
  destruct m as [| [p | p |] | p]; cbn [shr_m shr_r shr_s]; try lia.
  - split; [lia |]. split; [lia |]. intros H. right. exact H.
  - split; [lia |]. split; [lia |]. intros H. right. exact H.
Qed.

Lemma shifted_trans j k x y z :
  0 <= j -> 0 <= k -> shifted j x y -> shifted k y z -> shifted (j + k) x z.
Proof.
  intros Hj Hk (Y0 & Y1 & Y2) (Z0 & Z1 & Z2). unfold shifted.
  rewrite Z.pow_add_r by assumption.
  assert (0 < 2 ^ j) by (apply Z.pow_pos_nonneg; lia).
  assert (0 < 2 ^ k) by (apply Z.pow_pos_nonneg; lia).
  split; [exact Z0 |]. split; [nia |].
  intros B. destruct (Z2 B) as [L | B'].
  - left. nia.
  - destruct (Y2 B') as [L | B'']; [left; nia | right; exact B''].
Qed.

Lemma iter_pos_shifted p : forall x,
  0 <= shr_m x -> shifted (Z.pos p) x (iter_pos shr_1 p x).
Proof.
  induction p as [p IH | p IH |]; intros x Hx; cbn [iter_pos].
  - pose proof (shr_1_shifted x Hx) as S1.
    assert (H1 : 0 <= shr_m (shr_1 x)) by apply S1.
    pose proof (IH _ H1) as S2.
    assert (H2 : 0 <= shr_m (iter_pos shr_1 p (shr_1 x))) by apply S2.
    pose proof (IH _ H2) as S3.
    replace (Z.pos p~1) with (1 + (Z.pos p + Z.pos p)) by lia.
    eapply shifted_trans; [lia | lia | exact S1 |].
    eapply shifted_trans; [lia | lia | exact S2 | exact S3].
  - pose proof (IH _ Hx) as S2.
    assert (H2 : 0 <= shr_m (iter_pos shr_1 p x)) by apply S2.
    pose proof (IH _ H2) as S3.
    replace (Z.pos p~0) with (Z.pos p + Z.pos p) by lia.
    eapply shifted_trans; [lia | lia | exact S2 | exact S3].
  - apply shr_1_shifted. exact Hx.
Qed.

Lemma scaled_le_nonneg_exp m e H :
  0 <= e -> (scaled_le m e H <-> m * 2 ^ e <= H).
Proof.
  intros He. unfold scaled_le.
  rewrite (Z.max_l e 0), (Z.max_r (- e) 0) by lia. simpl. lia.
Qed.

Lemma scaled_le_nonpos_exp m e H :
  e <= 0 -> (scaled_le m e H <-> m <= H * 2 ^ (- e)).
Proof.
  intros He. unfold scaled_le.
  rewrite (Z.max_r e 0), (Z.max_l (- e) 0) by lia. simpl. lia.
Qed.

Lemma scaled_le_shift m q e k H :
  0 <= m -> 0 <= k -> m * 2 ^ k <= q -> scaled_le q e H ->
  scaled_le m (e + k) H.
Proof.
  intros Hm Hk Hq Hs.
  assert (Pk : 0 < 2 ^ k) by (apply Z.pow_pos_nonneg; lia).
  destruct (Z.le_gt_cases 0 e) as [He | He].
  - rewrite scaled_le_nonneg_exp in Hs by lia.
    rewrite scaled_le_nonneg_exp by lia.
    rewrite Z.pow_add_r by lia.
    assert (0 < 2 ^ e) by (apply Z.pow_pos_nonneg; lia). nia.
  - rewrite scaled_le_nonpos_exp in Hs by lia.
    assert (Pe : 0 < 2 ^ (- e)) by (apply Z.pow_pos_nonneg; lia).
    destruct (Z.le_gt_cases 0 (e + k)) as [Hek | Hek].
    + rewrite scaled_le_nonneg_exp by lia.
      assert (E : 2 ^ k = 2 ^ (e + k) * 2 ^ (- e)).
      { rewrite <- Z.pow_add_r by lia. f_equal. lia. }
      rewrite E in Hq.
      assert (0 < 2 ^ (e + k)) by (apply Z.pow_pos_nonneg; lia). nia.
    + rewrite scaled_le_nonpos_exp by lia.
      assert (E : 2 ^ (- e) = 2 ^ (- (e + k)) * 2 ^ k).
      { rewrite <- Z.pow_add_r by lia. f_equal. lia. }
      rewrite E in Hs.
      assert (0 < 2 ^ (- (e + k))) by (apply Z.pow_pos_nonneg; lia). nia.
Qed.

Lemma shifted_refl x : 0 <= shr_m x -> shifted 0 x x.
Proof.
  intros H. unfold shifted. simpl. split; [exact H |]. split; [lia |].
  intros B. right. exact B.
Qed.

(** What [shr_fexp] does to an exact mantissa. *)
Lemma shr_fexp_exact m e mrs e' :
  0 <= m ->
  shr_fexp prec emax m e loc_Exact = (mrs, e') ->
  (mrs = Build_shr_record m false false /\ e' = e) \/
  (exists k, 0 < k /\ e' = e + k /\
             e' = fexp prec emax (Zdigits2 m + e) /\
             shifted k (Build_shr_record m false false) mrs).
Proof.
  intros Hm. unfold shr_fexp, shr. cbn [shr_record_of_loc].
  destruct (fexp prec emax (Zdigits2 m + e) - e) as [| p | p] eqn:N;
    intros E; injection E as <- <-.
  - left. split; reflexivity.
  - right. exists (Z.pos p). split; [lia |]. split; [reflexivity |].
    split; [lia |]. apply iter_pos_shifted. exact Hm.
  - left. split; reflexivity.
Qed.

Lemma round_nearest_even_cases mrs :
  let q := round_nearest_even (shr_m mrs) (loc_of_shr_record mrs) in
  q = shr_m mrs \/ (q = shr_m mrs + 1 /\ shr_r mrs || shr_s mrs = true).
Proof.
  destruct mrs as [m r s]. cbn [shr_m shr_r shr_s].
  destruct r, s; cbn [loc_of_shr_record round_nearest_even]; auto.
  destruct (Z.even m); auto.
Qed.

Lemma fexp_nonpos m e H :
  0 < m -> 0 <= H < 2 ^ 53 -> scaled_le m e H ->
  fexp prec emax (Zdigits2 m + e) <= 0.
Proof.
  intros Hm HH Hs. unfold fexp, emin, prec, emax.
  destruct m as [| p | p]; try lia. cbn [Zdigits2].
  pose proof (digits2_pos_lower p) as D.
  set (d := Z.pos (digits2_pos p)) in *.
  assert (Hd : 0 < d) by (unfold d; lia).
  apply Z.max_lub; [| lia].
  destruct (Z.le_gt_cases 0 e) as [He | He].
  - rewrite scaled_le_nonneg_exp in Hs by lia.
    assert (L : 2 ^ (d - 1 + e) < 2 ^ 53).
    { rewrite Z.pow_add_r by lia.
      assert (0 < 2 ^ e) by (apply Z.pow_pos_nonneg; lia). nia. }
    apply Z.pow_lt_mono_r_iff in L; lia.
  - rewrite scaled_le_nonpos_exp in Hs by lia.
    assert (Pe : 0 < 2 ^ (- e)) by (apply Z.pow_pos_nonneg; lia).
    assert (L : 2 ^ (d - 1) < 2 ^ (53 - e)).
    { replace (53 - e) with (53 + - e) by lia.
      rewrite Z.pow_add_r by lia. nia. }
    apply Z.pow_lt_mono_r_iff in L; lia.
Qed.

(** Rounding an exact nonnegative value that is at most the integer [H]
    gives a value that is at most [H]. *)
Lemma binary_round_aux_le mx ex H :
  0 <= mx -> 0 <= H < 2 ^ 53 -> scaled_le mx ex H ->
  match binary_round_aux prec emax false mx ex loc_Exact with
  | S754_zero _ => True
  | S754_finite s m e => s = false /\ scaled_le (Z.pos m) e H
  | _ => False
  end.
Proof.
  intros Hm HH Hs. unfold binary_round_aux.
  destruct (shr_fexp prec emax mx ex loc_Exact) as [mrs' e'] eqn:S1.
  set (q := round_nearest_even (shr_m mrs') (loc_of_shr_record mrs')).
  assert (Q : 0 <= q /\ scaled_le q e' H).
  { pose proof (round_nearest_even_cases mrs') as C. fold q in C.
    apply shr_fexp_exact in S1; [| exact Hm].
    destruct S1 as [[-> ->] | (k & Hk & -> & Ee & S0 & S1' & S2)].
    - cbn [shr_m shr_r shr_s] in C.
      destruct C as [-> | [_ C]]; [auto | discriminate C].
    - cbn [shr_m shr_r shr_s] in S1', S2.
      destruct C as [-> | [-> C]].
      + split; [exact S0 |].
        eapply scaled_le_shift; [exact S0 | lia | exact S1' | exact Hs].
      + split; [lia |].
        destruct (S2 C) as [L | B]; [| discriminate B].
        assert (Pk : 0 < 2 ^ k) by (apply Z.pow_pos_nonneg; lia).
        assert (Mpos : 0 < mx) by nia.
        pose proof (fexp_nonpos mx ex H Mpos HH Hs) as F.
        rewrite <- Ee in F.
        rewrite scaled_le_nonpos_exp by lia.
        rewrite scaled_le_nonpos_exp in Hs by lia.
        assert (E : 2 ^ (- ex) = 2 ^ (- (ex + k)) * 2 ^ k).
        { rewrite <- Z.pow_add_r by lia. f_equal. lia. }
        rewrite E in Hs.
        assert (0 < 2 ^ (- (ex + k))) by (apply Z.pow_pos_nonneg; lia).
        nia. }
  destruct Q as [Q0 Q1].
  destruct (shr_fexp prec emax q e' loc_Exact) as [mrs'' e''] eqn:S2.
  apply shr_fexp_exact in S2; [| exact Q0].
  assert (R : 0 <= shr_m mrs'' /\ scaled_le (shr_m mrs'') e'' H).
  { destruct S2 as [[-> ->] | (k & Hk & -> & _ & S0 & S1' & _)].
    - cbn [shr_m]. auto.
    - cbn [shr_m] in S1'. split; [exact S0 |].
      eapply scaled_le_shift; [exact S0 | lia | exact S1' | exact Q1]. }
  destruct R as [R0 R1].
  destruct (shr_m mrs'') as [| m | m]; [exact I | | lia].
  destruct (Z.leb_spec e'' (emax - prec)) as [Le | Gt].
  - split; [reflexivity | exact R1].
  - unfold emax, prec in Gt.
    rewrite scaled_le_nonneg_exp in R1 by lia.
    assert (L : 2 ^ 53 <= 2 ^ e'') by (apply Z.pow_le_mono_r; lia).
    assert (0 < 2 ^ e'') by (apply Z.pow_pos_nonneg; lia). nia.
Qed.

Lemma scaled_le_iff m e H K :
  0 <= K -> 0 <= e + K ->
  (scaled_le m e H <-> m * 2 ^ (e + K) <= H * 2 ^ K).
Proof.
  intros HK HeK.
  assert (PK : 0 < 2 ^ K) by (apply Z.pow_pos_nonneg; lia).
  destruct (Z.le_gt_cases 0 e) as [He | He].
  - rewrite scaled_le_nonneg_exp by lia. rewrite Z.pow_add_r by lia.
    assert (0 < 2 ^ e) by (apply Z.pow_pos_nonneg; lia). nia.
  - rewrite scaled_le_nonpos_exp by lia.
    assert (E : 2 ^ K = 2 ^ (- e) * 2 ^ (e + K)).
    { rewrite <- Z.pow_add_r by lia. f_equal. lia. }
    rewrite E.
    assert (0 < 2 ^ (e + K)) by (apply Z.pow_pos_nonneg; lia).
    assert (0 < 2 ^ (- e)) by (apply Z.pow_pos_nonneg; lia). nia.
Qed.

Lemma scaled_le_mul a ea f ef H :
  0 <= a -> 0 <= f -> 0 <= H ->
  scaled_le a ea H -> scaled_le f ef 1 ->
  scaled_le (a * f) (ea + ef) H.
Proof.
  intros Ha Hf HH Sa Sf.
  set (K1 := Z.max (- ea) 0). set (K2 := Z.max (- ef) 0).
  rewrite (scaled_le_iff a ea H K1) in Sa by (unfold K1; lia).
  rewrite (scaled_le_iff f ef 1 K2) in Sf by (unfold K2; lia).
  rewrite (scaled_le_iff (a * f) (ea + ef) H (K1 + K2))
    by (unfold K1, K2; lia).
  replace (ea + ef + (K1 + K2)) with ((ea + K1) + (ef + K2)) by lia.
  rewrite !Z.pow_add_r by (unfold K1, K2; lia).
  assert (0 < 2 ^ (ea + K1)) by (apply Z.pow_pos_nonneg; unfold K1; lia).
  assert (0 < 2 ^ (ef + K2)) by (apply Z.pow_pos_nonneg; unfold K2; lia).
  assert (0 < 2 ^ K1) by (apply Z.pow_pos_nonneg; unfold K1; lia).
  assert (0 < 2 ^ K2) by (apply Z.pow_pos_nonneg; unfold K2; lia).
  assert (A : a * 2 ^ (ea + K1) * (f * 2 ^ (ef + K2))
              <= H * 2 ^ K1 * (1 * 2 ^ K2))
    by (apply Z.mul_le_mono_nonneg; nia).
  replace (a * f * (2 ^ (ea + K1) * 2 ^ (ef + K2)))
    with (a * 2 ^ (ea + K1) * (f * 2 ^ (ef + K2))) by ring.
  rewrite (Z.pow_add_r 2 K1 K2) by (unfold K1, K2; lia).
  replace (H * (2 ^ K1 * 2 ^ K2)) with (H * 2 ^ K1 * (1 * 2 ^ K2)) by ring.
  exact A.
Qed.

Lemma trunc_mag_le m e H :
  scaled_le (Z.pos m) e H -> trunc_mag m e <= H.
Proof.
  unfold trunc_mag. destruct (Z.leb_spec 0 e) as [He | He].
  - rewrite scaled_le_nonneg_exp by lia. trivial.
  - rewrite scaled_le_nonpos_exp by lia. intros L.
    assert (0 < 2 ^ (- e)) by (apply Z.pow_pos_nonneg; lia).
    apply Z.div_le_upper_bound; [lia | nia].
Qed.

(** The float of a positive integer below [2^53] is finite, and not above
    the integer. *)
Lemma float_of_int_le H :
  0 < H < 2 ^ 53 ->
  exists a, float_of_int H = Some a /\
    match a with
    | S754_zero _ => True
    | S754_finite s m e => s = false /\ scaled_le (Z.pos m) e H
    | _ => False
    end.
Proof.
  intros HH. unfold float_of_int.
  destruct H as [| p | p]; try lia.
  unfold binary_normalize, binary_round.
  destruct (shl_align p 0 (fexp prec emax (Z.pos (digits2_pos p) + 0)))
    as [mz ez] eqn:A.
  assert (S : scaled_le (Z.pos mz) ez (Z.pos p)).
  { unfold shl_align in A.
    destruct (fexp prec emax (Z.pos (digits2_pos p) + 0) - 0)
      as [| d | d] eqn:D; injection A as <- <-.
    - rewrite scaled_le_nonneg_exp by lia. simpl. lia.
    - rewrite scaled_le_nonneg_exp by lia. simpl. lia.
    - assert (E : fexp prec emax (Z.pos (digits2_pos p) + 0) = Z.neg d)
        by lia.
      rewrite Z.add_0_r in E. rewrite E.
      rewrite scaled_le_nonpos_exp by lia.
      change (Pos.iter xO p d) with (shift_pos d p).
      rewrite shift_pos_correct.
      change (Z.pow_pos 2 d) with (2 ^ Z.pos d).
      change (- Z.neg d) with (Z.pos d). lia. }
  pose proof (binary_round_aux_le (Z.pos mz) ez (Z.pos p)
                ltac:(lia) ltac:(lia) S) as R.
  destruct (binary_round_aux prec emax false (Z.pos mz) ez loc_Exact)
    as [s | s | | s m e]; try contradiction; eexists; split;
    try reflexivity; exact R.
Qed.

Lemma canonical_digits m e :
  canonical_mantissa prec emax m e = true ->
  Z.pos (digits2_pos m) <= 53 /\ - 1074 <= e /\
  (- 1074 < e -> Z.pos (digits2_pos m) = 53).
Proof.
  unfold canonical_mantissa, fexp, emin, prec, emax. intros C.
  apply Z.eqb_eq in C. lia.
Qed.

Lemma float_le_one_scaled hi :
  py_le (PyFloat hi) (PyInt 1) = true ->
  match hi with
  | S754_finite false m e => scaled_le (Z.pos m) e 1
  | _ => True
  end.
Proof.
  destruct hi as [s | s | | [|] m e]; try exact (fun _ => I).
  unfold py_le. cbn [py_compare int_float_compare option_map].
  destruct (Z.leb_spec 0 e) as [He | He].
  - rewrite scaled_le_nonneg_exp by lia.
    destruct (Z.compare_spec 1 (Z.pos m * 2 ^ e)); cbn [CompOpp];
      intros K; try discriminate K; lia.
  - rewrite scaled_le_nonpos_exp by lia.
    destruct (Z.compare_spec (1 * 2 ^ (- e)) (Z.pos m)); cbn [CompOpp];
      intros K; try discriminate K; lia.
Qed.

(** A binary64 draw that is not negative and at most a bound that is at
    most 1 is zero or a positive float of value at most 1. *)
Lemma fraction_le_one f hi :
  valid_binary prec emax f = true -> valid_binary prec emax hi = true ->
  not_negative f = true -> SFleb f hi = true ->
  py_le (PyFloat hi) (PyInt 1) = true ->
  match f with
  | S754_zero _ => True
  | S754_finite s m e => s = false /\ scaled_le (Z.pos m) e 1
  | _ => False
  end.
Proof.
  intros Vf Vh Nf L U.
  destruct f as [s | s | | s m e].
  - exact I.
  - destruct s; [discriminate Nf |].
    destruct hi as [sh | [|] | | sh mh eh]; try discriminate L.
    discriminate U.
  - discriminate L.
  - destruct s; [discriminate Nf |]. split; [reflexivity |].
    destruct hi as [sh | [|] | | [|] mh eh]; try discriminate L;
      try discriminate U.
    pose proof (float_le_one_scaled _ U) as Sh. cbn beta iota in Sh.
    cbn [valid_binary] in Vf, Vh. unfold bounded in Vf, Vh.
    apply andb_true_iff in Vf, Vh. destruct Vf as [Cf _], Vh as [Ch _].
    apply canonical_digits in Cf, Ch.
    destruct Cf as (Df & Ef & _), Ch as (_ & _ & Dh).
    unfold SFleb in L. cbn [SFcompare] in L.
    destruct (Z.compare_spec e eh) as [Eq | Lt | Gt]; try discriminate L.
    + subst eh.
      change (Pos.compare_cont Eq m mh) with (Pos.compare m mh) in L.
      assert (M : Z.pos m <= Z.pos mh).
      { destruct (Pos.compare_spec m mh); try discriminate L; lia. }
      unfold scaled_le in *.
      assert (0 < 2 ^ Z.max e 0) by (apply Z.pow_pos_nonneg; lia). nia.
    + pose proof (digits2_pos_lower mh) as Lh.
      pose proof (digits2_pos_upper m) as Um.
      rewrite Dh in Lh by lia. change (2 ^ (53 - 1)) with (2 ^ 52) in Lh.
      assert (Um' : Z.pos m < 2 ^ 53).
      { eapply Z.lt_le_trans; [exact Um |]. apply Z.pow_le_mono_r; lia. }
      destruct (Z.le_gt_cases 0 eh) as [Heh | Heh].
      * rewrite scaled_le_nonneg_exp in Sh by lia.
        assert (0 < 2 ^ eh) by (apply Z.pow_pos_nonneg; lia).
        assert (2 ^ 52 = 4503599627370496) by reflexivity. nia.
      * rewrite scaled_le_nonpos_exp in Sh by lia.
        assert (P52 : 2 ^ 52 <= 2 ^ (- eh)) by lia.
        apply Z.pow_le_mono_r_iff in P52; [| lia | lia].
        rewrite scaled_le_nonpos_exp by lia.
        assert (2 ^ 53 <= 2 ^ (- e)) by (apply Z.pow_le_mono_r; lia).
        lia.
Qed.

(** ** Fraction ranges never raise *)

(** A fraction draw gives a size between 0 and the dimension. *)
Lemma fraction_size_fits dimension f hi :
  0 < dimension < 2 ^ 53 ->
  valid_binary prec emax f = true -> valid_binary prec emax hi = true ->
  not_negative f = true -> SFleb f hi = true ->
  py_le (PyFloat hi) (PyInt 1) = true ->
  exists z, draw_size dimension (DFloat f) = Some z /\ 0 <= z <= dimension.
Proof.
  intros Hd Vf Vh Nf L U.
  destruct (float_of_int_le dimension Hd) as (a & Ea & Sa).
  pose proof (fraction_le_one f hi Vf Vh Nf L U) as Sf.
  cbn [draw_size]. unfold py_mul_int_float. rewrite Ea.
  destruct a as [sa | sa | | sa ma ea]; try contradiction;
    destruct f as [sf | sf | | sf mf ef]; try contradiction;
    cbn [SFmul py_int]; try (exists 0; split; [reflexivity | lia]).
  destruct Sa as [-> Sa], Sf as [-> Sf]. cbn [xorb].
  assert (Sp : scaled_le (Z.pos (ma * mf)) (ea + ef) dimension).
  { rewrite Pos2Z.inj_mul. apply scaled_le_mul; try lia; assumption. }
  assert (Hd' : 0 <= dimension < 2 ^ 53) by lia.
  pose proof (binary_round_aux_le (Z.pos (ma * mf)) (ea + ef) dimension
                (Pos2Z.is_nonneg _) Hd' Sp) as R.
  destruct (binary_round_aux prec emax false (Z.pos (ma * mf)) (ea + ef)
              loc_Exact) as [s | s | | s m e]; try contradiction.
  - exists 0. split; [reflexivity | lia].
  - destruct R as [-> R]. cbn [py_int]. eexists. split; [reflexivity |].
    split; [apply trunc_mag_nonneg | apply trunc_mag_le; exact R].
Qed.

Lemma admissible_size dimension lo hi f :
  0 < dimension < 2 ^ 53 ->
  py_le (PyInt 0) (PyFloat lo) = true ->
  py_le (PyFloat hi) (PyInt 1) = true ->
  valid_binary prec emax hi = true ->
  float_answer_ok lo hi f = true ->
  exists z, draw_size dimension (DFloat f) = Some z /\ 0 <= z <= dimension.
Proof.
  intros Hd L U Vh Ok. unfold float_answer_ok in Ok.
  apply andb_true_iff in Ok. destruct Ok as [Ok L2].
  apply andb_true_iff in Ok. destruct Ok as [Vf L1].
  apply (fraction_size_fits dimension f hi); try assumption.
  eapply SFleb_not_negative; [| exact L1]. apply py_le_zero_float. exact L.
Qed.

Lemma never_raises_uniform lo hi :
  never_raises (uniform (PyFloat lo) (PyFloat hi)).
Proof.
  intros t e t'. simpl.
  destruct t as [| [z | x] rest]; try discriminate.
  destruct (float_answer_ok lo hi x); discriminate.
Qed.

Lemma never_raises_int_of_product dimension f z :
  draw_size dimension (DFloat f) = Some z ->
  never_raises (int_of_product dimension f).
Proof.
  unfold int_of_product. simpl.
  destruct (py_mul_int_float dimension f) as [p |]; [| discriminate].
  intros -> t e t'. discriminate.
Qed.

Lemma run_uniform_float_returned lo hi t f t' :
  run (uniform (PyFloat lo) (PyFloat hi)) t = Some (Returned f, t') ->
  float_answer_ok lo hi f = true.
Proof.
  intros H. apply run_uniform_returned in H.
  destruct H as (l & h & L & U & Ok & _).
  simpl in L, U. injection L as <-. injection U as <-. exact Ok.
Qed.

Lemma SFleb_refl f :
  py_le (PyFloat f) (PyInt 1) = true -> SFleb f f = true.
Proof.
  unfold SFleb. destruct f as [s | s | | s m e]; cbn [SFcompare].
  - reflexivity.
  - destruct s; reflexivity.
  - discriminate.
  - intros _. rewrite Z.compare_refl.
    change (Pos.compare_cont Eq m m) with (Pos.compare m m).
    rewrite Pos.compare_refl. destruct s; reflexivity.
Qed.

Lemma fraction_branch_run height width a b c d f g hh hw t :
  float_answer_ok a b f = true -> float_answer_ok c d g = true ->
  draw_size height (DFloat f) = Some hh ->
  draw_size width (DFloat g) = Some hw ->
  run (calculate_hole_dimensions height width
         (PyFloat a, PyFloat b) (PyFloat c, PyFloat d))
      (DFloat f :: DFloat g :: t)
    = Some (Returned (hh, hw), t).
Proof.
  intros Ok1 Ok2 S1 S2.
  unfold calculate_hole_dimensions. cbn [fst snd is_int].
  rewrite run_bind, (run_uniform_ok _ _ _ _ Ok1).
  rewrite run_bind, (run_int_of_product_ok _ _ _ _ S1).
  rewrite run_bind, (run_uniform_ok _ _ _ _ Ok2).
  rewrite run_bind, (run_int_of_product_ok _ _ _ _ S2).
  reflexivity.
Qed.

Section FractionRuns.

Variables (height width : Z) (lo1 hi1 lo2 hi2 : float).
Hypothesis Hh : 0 < height < 2 ^ 53.
Hypothesis Hw : 0 < width < 2 ^ 53.
Hypothesis L1 : py_le (PyInt 0) (PyFloat lo1) = true.
Hypothesis U1 : py_le (PyFloat hi1) (PyInt 1) = true.
Hypothesis V1 : valid_binary prec emax hi1 = true.
Hypothesis L2 : py_le (PyInt 0) (PyFloat lo2) = true.
Hypothesis U2 : py_le (PyFloat hi2) (PyInt 1) = true.
Hypothesis V2 : valid_binary prec emax hi2 = true.

Lemma fraction_branch_sizes t hh hw t' :
  run (calculate_hole_dimensions height width
         (PyFloat lo1, PyFloat hi1) (PyFloat lo2, PyFloat hi2)) t
    = Some (Returned (hh, hw), t') ->
  0 <= hh <= height /\ 0 <= hw <= width.
Proof.
  intros H. apply run_calculate_hole_dimensions_returned in H.
  destruct H as (dh & dw & _ & H). cbn [fst snd is_int] in H.
  destruct H as [(f & l1 & h1 & -> & El1 & Eh1 & Ok1 & S1)
                 (g & l2 & h2 & -> & El2 & Eh2 & Ok2 & S2)].
  cbn [fst snd to_float] in El1, Eh1, El2, Eh2.
  injection El1 as <-. injection Eh1 as <-.
  injection El2 as <-. injection Eh2 as <-.
  destruct (admissible_size height lo1 hi1 f Hh L1 U1 V1 Ok1) as (z1 & E1 & R1).
  destruct (admissible_size width lo2 hi2 g Hw L2 U2 V2 Ok2) as (z2 & E2 & R2).
  rewrite E1 in S1. rewrite E2 in S2.
  injection S1 as <-. injection S2 as <-. auto.
Qed.

Lemma fraction_branch_never_raises :
  never_raises (calculate_hole_dimensions height width
         (PyFloat lo1, PyFloat hi1) (PyFloat lo2, PyFloat hi2)).
Proof.
  unfold calculate_hole_dimensions. cbn [fst snd is_int].
  apply never_raises_bind; [apply never_raises_uniform |].
  intros t f t1 Rf. apply run_uniform_float_returned in Rf.
  destruct (admissible_size height lo1 hi1 f Hh L1 U1 V1 Rf) as (z1 & E1 & _).
  apply never_raises_bind;
    [eapply never_raises_int_of_product; exact E1 |].
  intros _ hh _ _.
  apply never_raises_bind; [apply never_raises_uniform |].
  intros t2 g t3 Rg. apply run_uniform_float_returned in Rg.
  destruct (admissible_size width lo2 hi2 g Hw L2 U2 V2 Rg) as (z2 & E2 & _).
  apply never_raises_bind;
    [eapply never_raises_int_of_product; exact E2 |].
  intros _ hw _ _ t4 e t5. discriminate.
Qed.

Lemma fraction_loop_never_raises n : forall acc,
  never_raises (holes_loop n height width
         (PyFloat lo1, PyFloat hi1) (PyFloat lo2, PyFloat hi2) acc).
Proof.
  induction n as [| n IH]; intros acc.
  - intros t e t'. discriminate.
  - cbn [holes_loop]. apply never_raises_bind.
    + apply fraction_branch_never_raises.
    + intros t [hh hw] t1 D. apply fraction_branch_sizes in D.
      destruct D as [Rh Rw].
      apply never_raises_bind; [apply never_raises_randint; lia |].
      intros _ y1 _ _.
      apply never_raises_bind; [apply never_raises_randint; lia |].
      intros _ x1 _ _. apply IH.
Qed.

Hypothesis O1 : SFleb lo1 hi1 = true.
Hypothesis O2 : SFleb lo2 hi2 = true.

(** A run that draws the upper fractions and the corner [(0, 0)] every
    time. *)
Lemma fraction_loop_greatest_run n :
  exists zh zw, forall acc t,
    run (holes_loop n height width
           (PyFloat lo1, PyFloat hi1) (PyFloat lo2, PyFloat hi2) acc)
        (concat (repeat [DFloat hi1; DFloat hi2; DInt 0; DInt 0] n) ++ t)
    = Some (Returned (acc ++ repeat (0, 0, 0 + zw, 0 + zh) n), t).
Proof.
  assert (Ok1 : float_answer_ok lo1 hi1 hi1 = true).
  { unfold float_answer_ok. rewrite V1, O1, (SFleb_refl _ U1). reflexivity. }
  assert (Ok2 : float_answer_ok lo2 hi2 hi2 = true).
  { unfold float_answer_ok. rewrite V2, O2, (SFleb_refl _ U2). reflexivity. }
  destruct (admissible_size height lo1 hi1 hi1 Hh L1 U1 V1 Ok1)
    as (zh & Eh & Rh).
  destruct (admissible_size width lo2 hi2 hi2 Hw L2 U2 V2 Ok2)
    as (zw & Ew & Rw).
  exists zh, zw.
  induction n as [| n IH]; intros acc t.
  - simpl. rewrite app_nil_r. reflexivity.
  - cbn [repeat concat holes_loop]. rewrite run_bind. cbn [app].
    rewrite (fraction_branch_run height width lo1 hi1 lo2 hi2 hi1 hi2
               zh zw _ Ok1 Ok2 Eh Ew).
    rewrite run_bind, run_randint_ok by lia.
    rewrite run_bind, run_randint_ok by lia.
    rewrite IH. rewrite <- app_assoc. reflexivity.
Qed.

End FractionRuns.

Lemma valid_fraction_range lo hi range_name :
  InitSchema.validate_range (PyFloat lo, PyFloat hi) range_name 0
    = Returned tt ->
  py_le (PyInt 0) (PyFloat lo) = true /\ SFleb lo hi = true /\
  py_le (PyFloat hi) (PyInt 1) = true.
Proof.
  intros V. apply validate_range_returned in V. cbn [fst snd is_float] in V.
  destruct V as [C U]. specialize (U eq_refl).
  unfold InitSchema.chain_le in C. apply andb_true_iff in C.
  destruct C as [C1 C2].
  unfold InitSchema.all_in_unit, InitSchema.chain_le in U.
  cbn [fst snd forallb] in U.
  apply andb_true_iff in U. destruct U as [_ U].
  apply andb_true_iff in U. destruct U as [U _].
  apply andb_true_iff in U. destruct U as [_ U].
  auto.
Qed.

(** ** Holes lie within the image *)

(** C1, as stated, fails: the fraction range [(0.5, 0.5)] for the height
    and the integer range [(2, 2)] for the width are valid, and the low 2
    does not exceed the 20 pixels of the image; yet the width is sized as
    a fraction, [int(20 * 2.0) = 40], the interval [[0, 20 - 40]] of the x
    coordinate is empty, and the run raises. *)
Lemma corner_interval_empty_for_mixed_types :
  valid_ranges half_high_two_wide /\
  lower_bound_fits (hole_height_range half_high_two_wide) 20 /\
  lower_bound_fits (hole_width_range half_high_two_wide) 20 /\
  ~ corner_intervals_nonempty half_high_two_wide 20 20 /\
  run (get_params_dependent_on_targets half_high_two_wide 20 20)
      [DInt 1; DFloat float_half; DFloat float_two; DInt 0]
    = Some (Raised ValueError_low_ge_high, []).
Proof.
  split; [repeat split |]. split; [exact I |].
  split; [unfold lower_bound_fits; simpl; lia |].
  split; [| vm_compute; reflexivity].
  intros C.
  destruct (C [DFloat float_half; DFloat float_two] 10 40 [])
    as [_ W]; [vm_compute; reflexivity | lia].
Qed.

(** C1, amended.  With positive image height and width and validated
    ranges whose integer lower bounds do not exceed the image dimension:
    every hole of a run that returns is [(x1, y1, x2, y2)] with
    [0 <= x1 <= x2 <= width] and [0 <= y1 <= y2 <= height], and strictly
    so in each direction unless the size drawn for that direction is 0;
    and when both size ranges are made of integers, the clamp of the
    upper bound to the image keeps the intervals the corner is drawn from
    non-empty, so no run raises, and some run returns; the same holds when
    both size ranges are made of fractions, on images below [2^53] pixels
    a side. *)
Theorem holes_within_image (self : CoarseDropout) (height width : Z) :
  0 < height -> 0 < width ->
  valid_ranges self ->
  lower_bound_fits (hole_height_range self) height ->
  lower_bound_fits (hole_width_range self) width ->
  (forall tape holes rest,
      run (get_params_dependent_on_targets self height width) tape
        = Some (Returned holes, rest) ->
      Forall (hole_within height width) holes /\
      exists ss,
        read_samples (List.length holes) height width (tl tape)
          = Some (ss, rest) /\
        holes = map hole_of_sample ss /\
        Forall proper_unless_zero ss) /\
  (int_typed (hole_height_range self) -> int_typed (hole_width_range self) ->
   corner_intervals_nonempty self height width /\
   never_raises (get_params_dependent_on_targets self height width) /\
   exists tape holes,
     run (get_params_dependent_on_targets self height width) tape
       = Some (Returned holes, [])) /\
  (fraction_typed (hole_height_range self) ->
   fraction_typed (hole_width_range self) ->
   height < 2 ^ 53 -> width < 2 ^ 53 ->
   corner_intervals_nonempty self height width /\
   never_raises (get_params_dependent_on_targets self height width) /\
   exists tape holes,
     run (get_params_dependent_on_targets self height width) tape
       = Some (Returned holes, [])).
Proof.
  intros Hh Hw (Vn & Vh & Vw) Fh Fw.
  pose proof Vh as Vh0. pose proof Vw as Vw0.
  apply validate_range_low in Vn, Vh, Vw.
  destruct Vn as [Vn1 Vn2], Vh as [Vh1 Vh2], Vw as [Vw1 Vw2].
  split; [| split].
  - intros tape holes rest H.
    apply (run_sampler_returned self height width
             (fun hh hw => 0 <= hh /\ 0 <= hw)) in H.
    + destruct H as (n & body & ss & -> & _ & RS & -> & F).
      assert (L : List.length (map hole_of_sample ss) = Z.to_nat n).
      { rewrite length_map. eapply read_samples_length. exact RS. }
      split.
      * apply Forall_map. eapply Forall_impl; [| exact F].
        intros s [[S1 S2] [C1 C2]]. unfold hole_within, hole_of_sample.
        lia.
      * exists ss. rewrite L. simpl. split; [exact RS |].
        split; [reflexivity |].
        eapply Forall_impl; [| exact F].
        intros s [[S1 S2] _]. unfold proper_unless_zero, hole_of_sample.
        lia.
    + intros t hh hw t' D.
      eapply sizes_nonneg; try exact D; try lia; assumption.
  - intros (a & b & Eh) (c & d & Ew).
    split.
    { unfold corner_intervals_nonempty. rewrite Eh, Ew.
      intros t hh hw t' D. apply int_branch_sizes in D. lia. }
    unfold lower_bound_fits in Fh, Fw. rewrite Eh in *. rewrite Ew in *.
    simpl in *. unfold InitSchema.int_range in *. simpl in *.
    rewrite py_le_int in Vn1, Vn2, Vh1, Vh2, Vw1, Vw2.
    apply Z.leb_le in Vn1, Vn2, Vh1, Vh2, Vw1, Vw2.
    destruct (num_holes_range self) as [n1 n2] eqn:En. simpl in *.
    split.
    + unfold get_params_dependent_on_targets. rewrite Eh, Ew, En. simpl.
      apply never_raises_bind; [apply never_raises_randint; lia |].
      intros _ n _ _. apply int_loop_never_raises; assumption.
    + exists (DInt n1 ::
              concat (repeat [DInt a; DInt c; DInt 0; DInt 0] (Z.to_nat n1))
              ++ []).
      eexists. unfold get_params_dependent_on_targets.
      rewrite Eh, Ew, En. cbn [fst snd].
      rewrite run_bind, run_randint_ok by lia.
      apply int_loop_least_run; lia.
  - intros (lo1 & hi1 & Eh & V1) (lo2 & hi2 & Ew & V2) Bh Bw.
    rewrite Eh in Vh0. rewrite Ew in Vw0.
    apply valid_fraction_range in Vh0, Vw0.
    destruct Vh0 as (L1 & O1 & U1), Vw0 as (L2 & O2 & U2).
    split.
    { unfold corner_intervals_nonempty. rewrite Eh, Ew.
      intros t hh hw t' D.
      apply (fraction_branch_sizes height width lo1 hi1 lo2 hi2) in D;
        try assumption; lia. }
    unfold InitSchema.int_range in Vn1, Vn2. simpl in Vn1, Vn2.
    rewrite py_le_int in Vn1, Vn2. apply Z.leb_le in Vn1, Vn2.
    destruct (num_holes_range self) as [n1 n2] eqn:En. simpl in Vn1, Vn2.
    split.
    + unfold get_params_dependent_on_targets. rewrite Eh, Ew, En.
      cbn [fst snd].
      apply never_raises_bind; [apply never_raises_randint; lia |].
      intros _ n _ _.
      apply fraction_loop_never_raises; try assumption; lia.
    + destruct (fraction_loop_greatest_run height width lo1 hi1 lo2 hi2
                  ltac:(lia) ltac:(lia) L1 U1 V1 L2 U2 V2 O1 O2
                  (Z.to_nat n1)) as (zh & zw & R).
      exists (DInt n1 ::
              concat (repeat [DFloat hi1; DFloat hi2; DInt 0; DInt 0]
                             (Z.to_nat n1)) ++ []).
      eexists. unfold get_params_dependent_on_targets.
      rewrite Eh, Ew, En. cbn [fst snd].
      rewrite run_bind, run_randint_ok by lia.
      apply R.
Qed.

(** ** The law of the draws *)

Lemma Qsum_cons x l : Qsum (x :: l) = (x + Qsum l)%Q.
Proof. reflexivity. Qed.

Lemma Qsum_no_hit n len : forall lo,
  n < lo ->
  (Qsum (map (fun z => returns_value n (Returned z)) (Zseq lo len)) == 0)%Q.
Proof.
  induction len as [| len IH]; intros lo H.
  - reflexivity.
  - cbn [Zseq map]. rewrite Qsum_cons.
    assert (E := IH (lo + 1) ltac:(lia)). rewrite E. cbn [returns_value].
    destruct (Z.eqb_spec lo n); [lia | reflexivity].
Qed.

Lemma Qsum_one_hit n len : forall lo,
  (Qsum (map (fun z => returns_value n (Returned z)) (Zseq lo len)) ==
   if (lo <=? n) && (n <? lo + Z.of_nat len) then 1 else 0)%Q.
Proof.
  induction len as [| len IH]; intros lo.
  - cbn [Zseq map].
    destruct (Z.leb_spec lo n), (Z.ltb_spec n (lo + Z.of_nat 0)); simpl;
      try reflexivity; lia.
  - cbn [Zseq map]. rewrite Qsum_cons. cbn [returns_value].
    destruct (Z.eqb_spec lo n) as [-> | Hne].
    + assert (E := Qsum_no_hit n len (n + 1) ltac:(lia)). rewrite E.
      destruct (Z.leb_spec n n), (Z.ltb_spec n (n + Z.of_nat (S len)));
        simpl; try reflexivity; lia.
    + assert (E := IH (lo + 1)). rewrite E.
      destruct (Z.leb_spec (lo + 1) n),
               (Z.ltb_spec n (lo + 1 + Z.of_nat len)),
               (Z.leb_spec lo n),
               (Z.ltb_spec n (lo + Z.of_nat (S len)));
        simpl; try reflexivity; lia.
Qed.

Lemma expect_randint mean lo hi n :
  lo < hi ->
  (expect mean (randint (PyInt lo) (PyInt hi)) (returns_value n)
   == if (lo <=? n) && (n <? hi) then 1 / inject_Z (hi - lo) else 0)%Q.
Proof.
  intros H. unfold randint. cbn [int_of_scalar].
  destruct (Z.ltb_spec lo hi); [| lia].
  cbn [expect]. replace (hi - 1 - lo + 1) with (hi - lo) by lia.
  assert (E := Qsum_one_hit n (Z.to_nat (hi - lo)) lo).
  rewrite E. rewrite Z2Nat.id by lia.
  replace (lo + (hi - lo)) with hi by lia.
  destruct ((lo <=? n) && (n <? hi)); reflexivity.
Qed.

(** ** The number of holes *)

(** C4.  With a hole count range [0 <= low <= high]: a run that returns
    has drawn the number of holes first, and that number lies in
    [[low, high]]; the draw is uniform on that interval, each of its
    [high - low + 1] integers having chance [1 / (high - low + 1)]; and the
    sampler is the equal mixture, over the integers [n] of the interval,
    of the loop that makes [n] holes. *)
Theorem hole_count_uniform (self : CoarseDropout) (height width : Z) :
  let low := fst (num_holes_range self) in
  let high := snd (num_holes_range self) in
  0 <= low <= high ->
  (forall tape holes rest,
      run (get_params_dependent_on_targets self height width) tape
        = Some (Returned holes, rest) ->
      low <= Z.of_nat (List.length holes) <= high /\
      exists body, tape = DInt (Z.of_nat (List.length holes)) :: body) /\
  (forall mean n,
      (expect mean (randint (PyInt low) (PyInt (high + 1))) (returns_value n)
       == if (low <=? n) && (n <=? high)
          then 1 / inject_Z (high - low + 1) else 0)%Q) /\
  (forall mean g,
      (expect mean (get_params_dependent_on_targets self height width) g
       == Qsum (map (fun n =>
                       expect mean
                         (holes_loop (Z.to_nat n) height width
                            (hole_height_range self) (hole_width_range self)
                            []) g)
                    (Zseq low (Z.to_nat (high - low + 1))))
          / inject_Z (high - low + 1))%Q).
Proof.
  intros low high Hr. split; [| split].
  - intros tape holes rest H.
    apply (run_sampler_returned self height width (fun _ _ => True)) in H;
      [| trivial].
    destruct H as (n & body & ss & -> & Rn & RS & -> & _).
    apply read_samples_length in RS. rewrite length_map, RS.
    fold low high in Rn. rewrite Z2Nat.id by lia.
    split; [exact Rn | exists body; reflexivity].
  - intros mean n.
    assert (E := expect_randint mean low (high + 1) n ltac:(lia)).
    rewrite E. replace (high + 1 - low) with (high - low + 1) by lia.
    destruct (Z.leb_spec low n), (Z.ltb_spec n (high + 1)),
             (Z.leb_spec n high); simpl; try lia; reflexivity.
  - intros mean g. unfold get_params_dependent_on_targets, randint.
    cbn [int_of_scalar]. fold low high.
    destruct (Z.ltb_spec low (high + 1)); [| lia].
    cbn [bind expect]. replace (high + 1 - 1) with high by lia.
    reflexivity.
Qed.

(** ** The order of the draws *)

Lemma run_app {A : Type} (m : Rand A) : forall t o rest more,
  run m t = Some (o, rest) -> run m (t ++ more) = Some (o, rest ++ more).
Proof.
  induction m as [a | e | lo hi k IH | lo hi k IH]; intros t o rest more;
    simpl.
  - intros H. injection H as <- <-. reflexivity.
  - intros H. injection H as <- <-. reflexivity.
  - destruct t as [| [z | x] t0]; try discriminate. simpl.
    destruct (int_answer_ok lo hi z); [apply IH | discriminate].
  - destruct t as [| [z | x] t0]; try discriminate. simpl.
    destruct (float_answer_ok lo hi x); [apply IH | discriminate].
Qed.

(** C6, as stated, fails: on a 10 x 10 image with one 2 x 3 hole, the
    draws 1, 2, 3, 5, 1 give the hole [(1, 5, 4, 7)]: the draw 5 is the y
    coordinate and the draw 1 after it the x coordinate. *)
Lemma draw_order_x_before_y_fails : ~ drawn_x_before_y one_hole_2x3 10 10.
Proof.
  intros C.
  destruct (C [DInt 1; DInt 2; DInt 3; DInt 5; DInt 1] [(1, 5, 4, 7)] [])
    as (n & body & ss & E & R & M).
  - vm_compute. reflexivity.
  - injection E as <- <-. vm_compute in R. injection R as <-.
    vm_compute in M. discriminate M.
Qed.

(** C6, amended.  The holes of a run are a function of the draws: the
    first draw is the hole count, and every hole takes the next four
    draws, in the order height, width, y coordinate, x coordinate, the
    holes in the order they are made; draws past those the run consumes
    do not change the outcome. *)
Theorem draw_order_deterministic (self : CoarseDropout) (height width : Z) :
  (forall tape holes rest,
      run (get_params_dependent_on_targets self height width) tape
        = Some (Returned holes, rest) ->
      exists num_holes body ss,
        tape = DInt num_holes :: body /\
        read_samples (Z.to_nat num_holes) height width body
          = Some (ss, rest) /\
        holes = map hole_of_sample ss) /\
  (forall tape o rest more,
      run (get_params_dependent_on_targets self height width) tape
        = Some (o, rest) ->
      run (get_params_dependent_on_targets self height width) (tape ++ more)
        = Some (o, rest ++ more)).
Proof.
  split.
  - intros tape holes rest H.
    apply (run_sampler_returned self height width (fun _ _ => True)) in H;
      [| trivial].
    destruct H as (n & body & ss & -> & _ & RS & -> & _).
    exists n, body, ss. auto.
  - intros tape o rest more. apply run_app.
Qed.

(** ** A fraction range of one value *)

Lemma SFleb_antisym a b :
  SFleb a b = true -> SFleb b a = true ->
  a = b \/ exists s s', a = S754_zero s /\ b = S754_zero s'.
Proof.
  unfold SFleb.
  destruct a as [sa | sa | | sa ma ea], b as [sb | sb | | sb mb eb];
    simpl; try discriminate.
  - intros _ _. right. eauto.
  - destruct sb; discriminate.
  - destruct sb; discriminate.
  - destruct sa; discriminate.
  - destruct sa, sb; try discriminate; intros _ _; left; reflexivity.
  - destruct sa; discriminate.
  - destruct sa; discriminate.
  - destruct sb; discriminate.
  - destruct sa, sb; try discriminate.
    + rewrite (Z.compare_antisym ea eb).
      destruct (ea ?= eb) eqn:E; simpl; try discriminate.
      apply Z.compare_eq in E. subst eb.
      change (Pos.compare_cont Eq ma mb) with (Pos.compare ma mb).
      change (Pos.compare_cont Eq mb ma) with (Pos.compare mb ma).
      rewrite (Pos.compare_antisym ma mb).
      destruct (ma ?= mb)%positive eqn:M; simpl; try discriminate.
      apply Pos.compare_eq in M. subst mb. intros _ _. left. reflexivity.
    + rewrite (Z.compare_antisym ea eb).
      destruct (ea ?= eb) eqn:E; simpl; try discriminate.
      apply Z.compare_eq in E. subst eb.
      change (Pos.compare_cont Eq ma mb) with (Pos.compare ma mb).
      change (Pos.compare_cont Eq mb ma) with (Pos.compare mb ma).
      rewrite (Pos.compare_antisym ma mb).
      destruct (ma ?= mb)%positive eqn:M; simpl; try discriminate.
      apply Pos.compare_eq in M. subst mb. intros _ _. left. reflexivity.
Qed.

Lemma float_of_int_finite z f :
  float_of_int z = Some f ->
  (exists s, f = S754_zero s) \/ exists s m e, f = S754_finite s m e.
Proof.
  unfold float_of_int.
  destruct (binary_normalize prec emax z 0 false) as [s | s | | s m e];
    intros H; try discriminate; injection H as <-; eauto.
Qed.

Lemma draw_size_zero dimension s z :
  draw_size dimension (DFloat (S754_zero s)) = Some z -> z = 0.
Proof.
  simpl. unfold py_mul_int_float.
  destruct (float_of_int dimension) as [df |] eqn:E; [| discriminate].
  apply float_of_int_finite in E.
  destruct E as [[s0 ->] | (s0 & m & e & ->)]; simpl; intros H;
    injection H as <-; reflexivity.
Qed.

(** A draw between [f] and [f] stands for the same size as [f]. *)
Lemma draw_size_pinned dimension f g z :
  float_answer_ok f f g = true ->
  draw_size dimension (DFloat g) = Some z ->
  draw_size dimension (DFloat f) = Some z.
Proof.
  unfold float_answer_ok. intros Ok.
  apply andb_true_iff in Ok. destruct Ok as [Ok L2].
  apply andb_true_iff in Ok. destruct Ok as [_ L1].
  destruct (SFleb_antisym _ _ L1 L2) as [-> | (s & s' & -> & ->)].
  - trivial.
  - intros H. pose proof (draw_size_zero _ _ _ H) as ->.
    revert H. simpl. unfold py_mul_int_float.
    destruct (float_of_int dimension) as [df |] eqn:E; [| discriminate].
    apply float_of_int_finite in E.
    destruct E as [[s0 ->] | (s0 & m & e & ->)]; reflexivity.
Qed.

Lemma py_int_floor p z :
  not_negative p = true -> py_int p = Some z ->
  exists q, float_val p = Some q /\ z = Qfloor q.
Proof.
  destruct p as [s | s | | s m e]; simpl; try discriminate.
  - intros _ H. injection H as <-. exists 0%Q. split; reflexivity.
  - destruct s; [discriminate |]. intros _ H. injection H as <-.
    unfold trunc_mag. eexists. split; [reflexivity |].
    destruct (0 <=? e) eqn:E.
    + rewrite Qfloor_Z. reflexivity.
    + apply Z.leb_gt in E. simpl.
      rewrite Z2Pos.id by (apply Z.pow_pos_nonneg; lia). reflexivity.
Qed.

Lemma draw_size_floor dimension f z :
  0 <= dimension -> not_negative f = true ->
  draw_size dimension (DFloat f) = Some z -> floor_of_product dimension f z.
Proof.
  intros Hd Hf. simpl. unfold floor_of_product, py_mul_int_float.
  destruct (float_of_int dimension) as [df |] eqn:E; [| discriminate].
  intros H. apply py_int_floor in H.
  - destruct H as (q & V & ->). eauto.
  - apply SFmul_not_negative; [| exact Hf].
    eapply float_of_int_not_negative; eassumption.
Qed.


(** The product is the rounded one: [3 * float(1/3)] is the float 1. *)
Example rounded_product_third :
  draw_size 3 (DFloat (float_lit 1 3)) = Some 1.
Proof. vm_compute. reflexivity. Qed.

(** ** Keypoints *)

Lemma compare_between a b c :
  match a ?= b with Gt => false | _ => true end &&
  match b ?= c with Lt => true | _ => false end = true <->
  a <= b < c.
Proof.
  destruct (Z.compare_spec a b), (Z.compare_spec b c); simpl;
    split; intros K; try discriminate; try reflexivity; lia.
Qed.

Lemma between_spec (lo hi : Z) (x : ScalarType) :
  py_le (PyInt lo) x && py_lt x (PyInt hi) = true <->
  exists q, num_val x = Some q /\ (inject_Z lo <= q /\ q < inject_Z hi)%Q.
Proof.
  destruct x as [z | f].
  - rewrite py_le_int, py_lt_int, andb_true_iff, Z.leb_le, Z.ltb_lt.
    simpl. split.
    + intros [H1 H2]. exists (inject_Z z). split; [reflexivity |].
      rewrite <- Zle_Qle, <- Zlt_Qlt. auto.
    + intros (q & E & H1 & H2). injection E as <-.
      rewrite <- Zle_Qle in H1. rewrite <- Zlt_Qlt in H2. auto.
  - unfold py_le, py_lt. cbn [py_compare num_val].
    destruct f as [s | s | | s m e]; cbn [int_float_compare float_val
                                          option_map].
    + rewrite <- (Z.compare_antisym hi 0), compare_between.
      split.
      * intros H. exists 0%Q. split; [reflexivity |].
        change 0%Q with (inject_Z 0). rewrite <- Zle_Qle, <- Zlt_Qlt. exact H.
      * intros (q & E & H1 & H2). injection E as <-.
        change 0%Q with (inject_Z 0) in H1, H2.
        rewrite <- Zle_Qle in H1. rewrite <- Zlt_Qlt in H2. auto.
    + split.
      * destruct s; simpl; discriminate.
      * intros (q & E & _). discriminate.
    + split; [discriminate |]. intros (q & E & _). discriminate.
    + set (n := if s then Z.neg m else Z.pos m).
      destruct (0 <=? e) eqn:E.
      * rewrite <- (Z.compare_antisym hi (n * 2 ^ e)), compare_between.
        split.
        -- intros H. eexists. split; [reflexivity |].
           rewrite <- Zle_Qle, <- Zlt_Qlt. exact H.
        -- intros (q & Eq & H1 & H2). injection Eq as <-.
           rewrite <- Zle_Qle in H1. rewrite <- Zlt_Qlt in H2. auto.
      * apply Z.leb_gt in E.
        assert (P2 : 0 < 2 ^ (- e)) by (apply Z.pow_pos_nonneg; lia).
        rewrite <- (Z.compare_antisym (hi * 2 ^ (- e)) n), compare_between.
        split.
        -- intros H. eexists. split; [reflexivity |].
           unfold Qle, Qlt. cbn [Qnum Qden inject_Z].
           rewrite Z2Pos.id by exact P2. rewrite !Z.mul_1_r. exact H.
        -- intros (q & Eq & H1 & H2). injection Eq as <-.
           unfold Qle, Qlt in H1, H2. cbn [Qnum Qden inject_Z] in H1, H2.
           rewrite Z2Pos.id in H1, H2 by exact P2.
           rewrite !Z.mul_1_r in H1, H2. auto.
Qed.

Lemma keypoint_in_hole_inside keypoint hole :
  keypoint_in_hole keypoint hole = true <-> inside keypoint hole.
Proof.
  destruct hole as [[[x1 y1] x2] y2]. unfold keypoint_in_hole, inside.
  rewrite <- andb_assoc, andb_true_iff, !between_spec. split.
  - intros [(px & Ex & Hx) (py & Ey & Hy)]. exists px, py. auto.
  - intros (px & py & Ex & Ey & Hx & Hy). split; eauto.
Qed.

Lemma in_some_hole keypoint holes :
  existsb (fun hole => keypoint_in_hole keypoint hole) holes = true <->
  exists hole, In hole holes /\ inside keypoint hole.
Proof.
  rewrite existsb_exists. split; intros (hole & I & H); exists hole;
    (split; [exact I | apply keypoint_in_hole_inside; exact H]).
Qed.

Lemma in_no_hole keypoint holes :
  existsb (fun hole => keypoint_in_hole keypoint hole) holes = false <->
  forall hole, In hole holes -> ~ inside keypoint hole.
Proof.
  split.
  - intros E hole I H.
    assert (C : existsb (fun h => keypoint_in_hole keypoint h) holes = true)
      by (apply in_some_hole; eauto).
    congruence.
  - intros H.
    destruct (existsb (fun h => keypoint_in_hole keypoint h) holes) eqn:E;
      [| reflexivity].
    apply in_some_hole in E. destruct E as (hole & I & K).
    destruct (H hole I K).
Qed.

(** C2.  [apply_to_keypoints] returns exactly the subsequence, in input
    order, of the keypoints inside no hole, where [(px, py)] is inside
    [(x1, y1, x2, y2)] iff [x1 <= px < x2] and [y1 <= py < y2]: a keypoint
    at the corner [(x1, y1)] of a hole with [x1 < x2] and [y1 < y2] is
    removed, a keypoint at [(x2, y2)] is not inside the hole and is kept
    unless another hole contains it, and a hole of zero width or height
    contains no keypoint and removes none. *)
Theorem keypoints_outside_holes :
  (forall keypoints holes r,
      kept holes keypoints r <-> r = apply_to_keypoints keypoints holes) /\
  (forall keypoint hole,
      keypoint_in_hole keypoint hole = true <-> inside keypoint hole) /\
  (forall keypoints holes keypoint x1 y1 x2 y2,
      x1 < x2 -> y1 < y2 -> In (x1, y1, x2, y2) holes ->
      at_point keypoint x1 y1 ->
      ~ In keypoint (apply_to_keypoints keypoints holes)) /\
  (forall keypoints holes keypoint x1 y1 x2 y2,
      at_point keypoint x2 y2 ->
      ~ inside keypoint (x1, y1, x2, y2) /\
      apply_to_keypoints [keypoint] [(x1, y1, x2, y2)] = [keypoint] /\
      (In keypoint keypoints ->
       (forall hole, In hole holes ->
                     hole = (x1, y1, x2, y2) \/ ~ inside keypoint hole) ->
       In keypoint (apply_to_keypoints keypoints holes))) /\
  (forall keypoints holes x1 y1 x2 y2,
      x1 = x2 \/ y1 = y2 ->
      (forall keypoint, ~ inside keypoint (x1, y1, x2, y2)) /\
      apply_to_keypoints keypoints ((x1, y1, x2, y2) :: holes)
        = apply_to_keypoints keypoints holes).
Proof.
  split; [| split; [| split; [| split]]].
  - intros keypoints holes r. split.
    + induction 1 as [| k ks r N _ IH | k ks r Y _ IH]; simpl.
      * reflexivity.
      * apply in_no_hole in N. rewrite N. simpl. f_equal. exact IH.
      * apply in_some_hole in Y. rewrite Y. simpl. exact IH.
    + intros ->. induction keypoints as [| k ks IH]; simpl.
      * constructor.
      * destruct (existsb (fun hole => keypoint_in_hole k hole) holes) eqn:E;
          simpl.
        -- apply kept_drop; [apply in_some_hole; exact E | exact IH].
        -- apply kept_keep; [apply in_no_hole; exact E | exact IH].
  - apply keypoint_in_hole_inside.
  - intros keypoints holes k x1 y1 x2 y2 Hx Hy I (px & py & Ex & Ey & Qx & Qy).
    unfold apply_to_keypoints. rewrite filter_In. intros [_ N].
    apply negb_true_iff in N.
    assert (C : existsb (fun hole => keypoint_in_hole k hole) holes = true).
    { apply in_some_hole. exists (x1, y1, x2, y2). split; [exact I |].
      exists px, py. split; [exact Ex |]. split; [exact Ey |].
      rewrite Qx, Qy, <- !Zle_Qle, <- !Zlt_Qlt. lia. }
    congruence.
  - intros keypoints holes k x1 y1 x2 y2 (px & py & Ex & Ey & Qx & Qy).
    assert (N : ~ inside k (x1, y1, x2, y2)).
    { intros (qx & qy & Ex' & Ey' & [_ Hx] & _).
      rewrite Ex in Ex'. injection Ex' as <-.
      rewrite Qx, <- Zlt_Qlt in Hx. lia. }
    split; [exact N |]. split.
    + unfold apply_to_keypoints. cbn [filter existsb].
      destruct (keypoint_in_hole k (x1, y1, x2, y2)) eqn:E; [| reflexivity].
      apply keypoint_in_hole_inside in E. destruct (N E).
    + intros I Others. unfold apply_to_keypoints. apply filter_In.
      split; [exact I |]. apply negb_true_iff. apply in_no_hole.
      intros hole Ih. destruct (Others hole Ih) as [-> | K]; assumption.
  - intros keypoints holes x1 y1 x2 y2 Z0.
    assert (N : forall k, ~ inside k (x1, y1, x2, y2)).
    { intros k (px & py & _ & _ & [Hx1 Hx2] & [Hy1 Hy2]).
      pose proof (Qle_lt_trans _ _ _ Hx1 Hx2) as Lx.
      pose proof (Qle_lt_trans _ _ _ Hy1 Hy2) as Ly.
      rewrite <- Zlt_Qlt in Lx, Ly. lia. }
    split; [exact N |].
    unfold apply_to_keypoints. apply filter_ext. intros k. cbn [existsb].
    destruct (keypoint_in_hole k (x1, y1, x2, y2)) eqn:E; [| reflexivity].
    apply keypoint_in_hole_inside in E. destruct (N k E).
Qed.

(** ** The mask *)

(** C3.  With [mask_fill_value] [None], [apply_to_mask] returns the mask
    buffer it was given, whatever the holes. *)
Theorem mask_unchanged_without_fill (mask : ndarray) (holes : list Hole) :
  apply_to_mask mask None holes = inr mask.
Proof. reflexivity. Qed.

(** With a fill value the holes are cut out of the mask. *)
Example mask_cut_with_fill :
  apply_to_mask
    [[[PyInt 5]; [PyInt 5]; [PyInt 5]];
     [[PyInt 5]; [PyInt 5]; [PyInt 5]]]
    (Some (ColorScalar (PyInt 0))) [(1, 0, 3, 1)]
  = inr [[[PyInt 5]; [PyInt 0]; [PyInt 0]];
         [[PyInt 5]; [PyInt 5]; [PyInt 5]]].
Proof. reflexivity. Qed.

(** ** Schema normalization *)


(** ** Schema validation *)

(** C8, as stated, fails: the height range [(-1, 5)] is in order, made of
    integers, and the hole count is 8, yet the check raises. *)
Lemma negative_low_raises_unclaimed :
  ~ (raises negative_height_low <->
     claimed_error_condition negative_height_low).
Proof.
  intros [H _].
  assert (R : raises negative_height_low).
  { eexists. vm_compute. reflexivity. }
  apply H in R. unfold claimed_error_condition in R.
  destruct R as [R | [R | [R | [[R _] | [[R _] | R]]]]];
    vm_compute in R; discriminate R.
Qed.

Lemma validate_range_raised range_value range_name minimum :
  (exists e,
      InitSchema.validate_range range_value range_name minimum = Raised e) <->
  range_rejected range_value minimum.
Proof.
  unfold InitSchema.validate_range, InitSchema.chain_le, range_rejected.
  destruct (py_le (PyInt minimum) (fst range_value));
    destruct (py_le (fst range_value) (snd range_value));
    destruct (is_float (fst range_value));
    destruct (InitSchema.all_in_unit range_value); simpl;
    split; intros H;
    try (eexists; reflexivity);
    try (destruct H as [e H]; discriminate H);
    try (destruct H as [H | [H | [H1 H2]]]; discriminate);
    auto.
Qed.

Lemma count_range_rejected (r : Z * Z) :
  range_rejected (InitSchema.int_range r) 1 <-> fst r < 1 \/ snd r < fst r.
Proof.
  unfold range_rejected, InitSchema.int_range. simpl.
  rewrite !py_le_int, !Z.leb_gt. split.
  - intros [H | [H | [H _]]]; [lia | lia | discriminate].
  - intros [H | H]; [left | right; left]; lia.
Qed.

(** C8, amended.  The check raises if and only if, for the normalized
    ranges, the hole count low is below 1 or above its high, or a size
    range fails [0 <= low <= high], or a size range whose first element is
    a float has a value outside [[0, 1]]; otherwise it returns the
    normalized schema. *)
Theorem check_raises_iff (self : InitSchema.t) :
  let s := InitSchema.normalize self in
  let rejected :=
    (fst (InitSchema.num_holes_range s) < 1 \/
     snd (InitSchema.num_holes_range s) < fst (InitSchema.num_holes_range s))
    \/ range_rejected (InitSchema.hole_height_range s) 0
    \/ range_rejected (InitSchema.hole_width_range s) 0 in
  (raises self <-> rejected) /\
  (~ rejected -> InitSchema.check_holes_and_dimensions self = Returned s).
Proof.
  intros s rejected.
  pose proof (validate_range_raised
                (InitSchema.int_range (InitSchema.num_holes_range s))
                "num_holes_range" 1) as Kn.
  rewrite count_range_rejected in Kn.
  pose proof (validate_range_raised
                (InitSchema.hole_height_range s) "hole_height_range" 0) as Kh.
  pose proof (validate_range_raised
                (InitSchema.hole_width_range s) "hole_width_range" 0) as Kw.
  unfold raises, rejected, InitSchema.check_holes_and_dimensions,
    InitSchema.validate. fold s.
  destruct (InitSchema.validate_range
              (InitSchema.int_range (InitSchema.num_holes_range s))
              "num_holes_range" 1) as [[] | e1].
  - destruct (InitSchema.validate_range
                (InitSchema.hole_height_range s) "hole_height_range" 0)
      as [[] | e2].
    + destruct (InitSchema.validate_range
                  (InitSchema.hole_width_range s) "hole_width_range" 0)
        as [[] | e3].
      * split; [| reflexivity]. split.
        -- intros [e H]. discriminate H.
        -- intros [H | [H | H]].
           ++ apply Kn in H. destruct H as [e H]. discriminate H.
           ++ apply Kh in H. destruct H as [e H]. discriminate H.
           ++ apply Kw in H. destruct H as [e H]. discriminate H.
      * assert (R : range_rejected (InitSchema.hole_width_range s) 0)
          by (apply Kw; eauto).
        split; [| intros N; destruct N; auto]. split; eauto.
    + assert (R : range_rejected (InitSchema.hole_height_range s) 0)
        by (apply Kh; eauto).
      split; [| intros N; destruct N; auto]. split; eauto.
  - assert (R : fst (InitSchema.num_holes_range s) < 1 \/
                snd (InitSchema.num_holes_range s)
                  < fst (InitSchema.num_holes_range s))
      by (apply Kn; eauto).
    split; [| intros N; destruct N; auto]. split; eauto.
Qed.

(** ** Which rule sizes a hole *)

(** C5, as stated, fails: with the fraction range [(0.5, 0.5)] for the
    height and the integer range [(2, 2)] for the width on a 20 x 20
    image, the width is [int(20 * 2.0) = 40], not a draw from
    [[2, 2]]. *)
Lemma mixed_types_not_by_own_type :
  ~ each_by_own_type 20 20 (FractionRange float_half float_half)
                           (IntRange 2 2).
Proof.
  intros C.
  destruct (C [DFloat float_half; DFloat float_two] 10 40 [])
    as (dh & dw & E & _ & W).
  - vm_compute. reflexivity.
  - injection E as <- <-. destruct W as [W _]. discriminate W.
Qed.

(** The one test of the sampler is on the first element of the height
    range: the two sizes are both integer draws or both float draws. *)
Lemma dispatch_on_height_range height width hr wr t hh hw t' :
  run (calculate_hole_dimensions height width hr wr) t
    = Some (Returned (hh, hw), t') ->
  if is_int (fst hr) then t = DInt hh :: DInt hw :: t'
  else exists f g, t = DFloat f :: DFloat g :: t' /\
                   draw_size height (DFloat f) = Some hh /\
                   draw_size width (DFloat g) = Some hw.
Proof.
  intros H. apply run_calculate_hole_dimensions_returned in H.
  destruct H as (dh & dw & -> & H).
  destruct (is_int (fst hr)).
  - destruct H as [[-> _] [-> _]]. reflexivity.
  - destruct H as [(f & l1 & h1 & -> & _ & _ & _ & S1)
                   (g & l2 & h2 & -> & _ & _ & _ & S2)].
    exists f, g. auto.
Qed.

(** C5, amended.  When the height range and the width range are of the
    same type, the height and the width of a hole are each sized by the
    rule of that type: integer ranges have the upper bound clamped to the
    image dimension and the size drawn uniformly from
    [[low, clamped_high]], every integer of which can be drawn; fraction
    ranges (with lows at least 0) have a fraction [f] drawn in
    [[low, high]] and the size [floor(dimension * f)].  The type is read
    off the first element of the height range and decides for both
    sizes. *)
Theorem sizes_by_range_type :
  (forall height width a b c d,
      each_by_own_type height width (IntRange a b) (IntRange c d)) /\
  (forall height width a b c d hh hw t,
      a <= hh <= Z.min b height -> c <= hw <= Z.min d width ->
      run (calculate_hole_dimensions height width
             (PyInt a, PyInt b) (PyInt c, PyInt d))
          (DInt hh :: DInt hw :: t)
        = Some (Returned (hh, hw), t)) /\
  (forall mean dimension low high n,
      low <= Z.min high dimension ->
      (expect mean
         (randint (PyInt low) (py_succ (py_min (PyInt high) (PyInt dimension))))
         (returns_value n)
       == if (low <=? n) && (n <=? Z.min high dimension)
          then 1 / inject_Z (Z.min high dimension - low + 1) else 0)%Q) /\
  (forall height width a b c d,
      0 <= height -> 0 <= width ->
      py_le (PyInt 0) (PyFloat a) = true ->
      py_le (PyInt 0) (PyFloat c) = true ->
      each_by_own_type height width (FractionRange a b) (FractionRange c d)) /\
  (forall height width a b c d f g hh hw t,
      float_answer_ok a b f = true -> float_answer_ok c d g = true ->
      draw_size height (DFloat f) = Some hh ->
      draw_size width (DFloat g) = Some hw ->
      run (calculate_hole_dimensions height width
             (PyFloat a, PyFloat b) (PyFloat c, PyFloat d))
          (DFloat f :: DFloat g :: t)
        = Some (Returned (hh, hw), t)) /\
  (forall height width hr wr t hh hw t',
      run (calculate_hole_dimensions height width hr wr) t
        = Some (Returned (hh, hw), t') ->
      if is_int (fst hr) then t = DInt hh :: DInt hw :: t'
      else exists f g, t = DFloat f :: DFloat g :: t' /\
                       draw_size height (DFloat f) = Some hh /\
                       draw_size width (DFloat g) = Some hw).
Proof.
  split; [| split; [| split; [| split; [| split]]]].
  - intros height width a b c d t hh hw t' H.
    apply int_branch_sizes in H. destruct H as (-> & Rh & Rw).
    exists (DInt hh), (DInt hw). simpl. auto.
  - intros height width a b c d hh hw t Rh Rw.
    unfold calculate_hole_dimensions. cbn [fst snd is_int].
    rewrite !py_min_int. cbn [py_succ].
    rewrite run_bind, run_randint_ok by lia.
    rewrite run_bind, run_randint_ok by lia. reflexivity.
  - intros mean dimension low high n H.
    rewrite py_min_int. cbn [py_succ].
    assert (E := expect_randint mean low (Z.min high dimension + 1) n
                   ltac:(lia)).
    rewrite E.
    replace (Z.min high dimension + 1 - low)
      with (Z.min high dimension - low + 1) by lia.
    destruct (Z.leb_spec low n), (Z.ltb_spec n (Z.min high dimension + 1)),
             (Z.leb_spec n (Z.min high dimension)); simpl;
      try lia; reflexivity.
  - intros height width a b c d Hh Hw Ha Hc t hh hw t' H.
    apply run_calculate_hole_dimensions_returned in H.
    destruct H as (dh & dw & -> & H). cbn [scalars fst snd is_int] in H.
    destruct H as [(f & l1 & h1 & -> & L1 & U1 & Ok1 & S1)
                   (g & l2 & h2 & -> & L2 & U2 & Ok2 & S2)].
    cbn [to_float] in L1, U1, L2, U2.
    injection L1 as <-. injection U1 as <-.
    injection L2 as <-. injection U2 as <-.
    exists (DFloat f), (DFloat g). split; [reflexivity |].
    assert (Nf : not_negative f = true).
    { unfold float_answer_ok in Ok1.
      apply andb_true_iff in Ok1. destruct Ok1 as [Ok1 _].
      apply andb_true_iff in Ok1. destruct Ok1 as [_ Ok1].
      eapply SFleb_not_negative; [| exact Ok1].
      apply py_le_zero_float. exact Ha. }
    assert (Ng : not_negative g = true).
    { unfold float_answer_ok in Ok2.
      apply andb_true_iff in Ok2. destruct Ok2 as [Ok2 _].
      apply andb_true_iff in Ok2. destruct Ok2 as [_ Ok2].
      eapply SFleb_not_negative; [| exact Ok2].
      apply py_le_zero_float. exact Hc. }
    split.
    + exists f. split; [reflexivity |]. split; [exact Ok1 |].
      apply draw_size_floor; assumption.
    + exists g. split; [reflexivity |]. split; [exact Ok2 |].
      apply draw_size_floor; assumption.
  - intros height width a b c d f g hh hw t Ok1 Ok2 S1 S2.
    apply fraction_branch_run; assumption.
  - apply dispatch_on_height_range.
Qed.

(** ** A range that starts with an integer and ends with a float *)

(** C10, as stated, fails for a width range: next to the fraction range
    [(0.5, 0.5)] for the height, the width range [(0, 0.7)] is sized by a
    fraction draw, [int(10 * 0.5) = 5] here. *)
Lemma width_range_follows_height_type :
  ~ width_treated_as_integer 10 10
      (PyFloat float_half, PyFloat float_half) 0 float_7_10.
Proof.
  intros C.
  destruct (C [DFloat float_half; DFloat float_half] 5 5 []) as (dh & E).
  - vm_compute. reflexivity.
  - discriminate E.
Qed.

(** C10, amended.  A size range [(a, b)] with [a] an integer and [b] a
    float passes validation exactly when [0 <= a <= b], no check against
    [[0, 1]] being made: [(0, 0.7)] and [(0, 7.5)] pass, [(0.0, 7.5)] does
    not; the validator tests the type of the first element of the range
    only.  As the height range, it has both sizes drawn as integers, the
    height at least [a]; the sampler tests the type of the first element
    of the height range only. *)
Theorem int_first_range_is_integer_typed :
  (forall a b range_name,
      InitSchema.validate_range (PyInt a, PyFloat b) range_name 0
        = Returned tt <->
      InitSchema.chain_le (PyInt 0) (PyInt a) (PyFloat b) = true) /\
  (InitSchema.validate_range (PyInt 0, PyFloat float_7_10)
     "hole_height_range" 0 = Returned tt /\
   InitSchema.validate_range (PyInt 0, PyFloat float_15_2)
     "hole_height_range" 0 = Returned tt /\
   InitSchema.validate_range (PyFloat (S754_zero false), PyFloat float_15_2)
     "hole_height_range" 0
   = Raised (ValueError_unit_interval "hole_height_range")) /\
  (forall range_value range_name minimum,
      InitSchema.validate_range range_value range_name minimum
        = Returned tt <->
      InitSchema.chain_le (PyInt minimum) (fst range_value) (snd range_value)
        = true /\
      (is_float (fst range_value) = true ->
       InitSchema.all_in_unit range_value = true)) /\
  (forall height width a b wr t hh hw t',
      run (calculate_hole_dimensions height width (PyInt a, PyFloat b) wr) t
        = Some (Returned (hh, hw), t') ->
      t = DInt hh :: DInt hw :: t' /\ a <= hh) /\
  (forall height width hr wr t hh hw t',
      run (calculate_hole_dimensions height width hr wr) t
        = Some (Returned (hh, hw), t') ->
      if is_int (fst hr) then t = DInt hh :: DInt hw :: t'
      else exists f g, t = DFloat f :: DFloat g :: t' /\
                       draw_size height (DFloat f) = Some hh /\
                       draw_size width (DFloat g) = Some hw).
Proof.
  split; [| split; [| split; [| split]]].
  - intros a b range_name. rewrite validate_range_returned. simpl.
    split; [intros [H _]; exact H | intros H; split; [exact H | discriminate]].
  - repeat split; vm_compute; reflexivity.
  - apply validate_range_returned.
  - intros height width a b wr t hh hw t' H.
    pose proof (dispatch_on_height_range _ _ _ _ _ _ _ _ H) as D.
    cbn [fst is_int] in D. split; [exact D |].
    apply run_calculate_hole_dimensions_returned in H.
    destruct H as (dh & dw & _ & H). cbn [fst is_int] in H.
    destruct H as [(_ & lo & hi & L & _ & R) _].
    simpl in L. injection L as <-. lia.
  - apply dispatch_on_height_range.
Qed.

(** * Concrete runs *)

Lemma two_holes_valid : valid_ranges two_holes.
Proof. repeat split. Defined.

(** C1 on a 10 x 12 image: two holes, the first as wide as the image. *)
Lemma holes_within_image_witness :
  Forall (hole_within 10 12) [(0, 5, 12, 8); (2, 1, 5, 3)].
Proof.
  refine (proj1 (proj1 (holes_within_image two_holes 10 12 _ _ _ _ _)
                       two_holes_tape _ [] _)).
  - lia.
  - lia.
  - exact two_holes_valid.
  - unfold lower_bound_fits. simpl. lia.
  - unfold lower_bound_fits. simpl. lia.
  - vm_compute. reflexivity.
Defined.

(** C4 on the same run: two holes, within [[1, 2]]. *)
Lemma hole_count_uniform_witness :
  1 <= Z.of_nat (List.length [(0, 5, 12, 8); (2, 1, 5, 3)]) <= 2.
Proof.
  refine (proj1 (proj1 (hole_count_uniform two_holes 10 12 _)
                       two_holes_tape _ [] _)).
  - simpl. lia.
  - vm_compute. reflexivity.
Defined.

(** C6 on the same run. *)
Lemma draw_order_deterministic_witness :
  exists num_holes body ss,
    two_holes_tape = DInt num_holes :: body /\
    read_samples (Z.to_nat num_holes) 10 12 body = Some (ss, []) /\
    [(0, 5, 12, 8); (2, 1, 5, 3)] = map hole_of_sample ss.
Proof.
  refine (proj1 (draw_order_deterministic two_holes 10 12)
                two_holes_tape _ [] _).
  vm_compute. reflexivity.
Defined.


(** C2: the keypoints (1, 1), (3, 3), (7, 7) against the hole
    (2, 2, 6, 6). *)
Lemma keypoints_outside_holes_witness :
  kept [(2, 2, 6, 6)]
       [keypoint_at 1 1; keypoint_at 3 3; keypoint_at 7 7]
       [keypoint_at 1 1; keypoint_at 7 7].
Proof.
  refine (proj2 (proj1 keypoints_outside_holes _ _ _) _).
  vm_compute. reflexivity.
Defined.


(** C8 on the defaults: nothing is rejected, the check returns. *)
Lemma check_raises_iff_witness :
  InitSchema.check_holes_and_dimensions InitSchema.defaults
  = Returned (InitSchema.normalize InitSchema.defaults).
Proof.
  refine (proj2 (check_raises_iff InitSchema.defaults) _).
  intros [[H | H] | [[H | [H | [H _]]] | [H | [H | [H _]]]]];
    vm_compute in H; try discriminate H; lia.
Defined.

(** C5 with two fraction ranges. *)
Lemma sizes_by_range_type_witness :
  each_by_own_type 20 20 (FractionRange float_half float_half)
                         (FractionRange float_half float_half).
Proof.
  refine (proj1 (proj2 (proj2 (proj2 sizes_by_range_type)))
                20 20 float_half float_half float_half float_half _ _ _ _).
  - lia.
  - lia.
  - vm_compute. reflexivity.
  - vm_compute. reflexivity.
Defined.

(** C10 with the height range [(0, 0.7)] on a 10 x 10 image. *)
Lemma int_first_range_is_integer_typed_witness :
  [DInt 0; DInt 0] = [DInt 0; DInt 0] /\ 0 <= 0.
Proof.
  refine (proj1 (proj2 (proj2 (proj2 int_first_range_is_integer_typed)))
                10 10 0 float_7_10 (PyInt 0, PyFloat float_7_10)
                [DInt 0; DInt 0] 0 0 [] _).
  vm_compute. reflexivity.
Defined.

(** A run with fraction ranges on a 20 x 20 image: the fractions 0.5 and
    0.25 give a hole 10 high and 5 wide. *)
Example fraction_ranges_run :
  run (get_params_dependent_on_targets
         {| num_holes_range := (1, 1);
            hole_height_range :=
              (PyFloat (float_lit 1 4), PyFloat (float_lit 1 2));
            hole_width_range :=
              (PyFloat (float_lit 1 4), PyFloat (float_lit 1 2));
            fill_value := FillRandom;
            mask_fill_value := None |} 20 20)
      [DInt 1; DFloat (float_lit 1 2); DFloat (float_lit 1 4);
       DInt 3; DInt 7]
  = Some (Returned [(7, 3, 12, 13)], []).
Proof. vm_compute. reflexivity. Qed.

(** The bound [2^53] is needed: a dimension above it need not be a float,
    and the whole of it, as a fraction draw of 1, may round up. *)
Example large_dimension_rounds_up :
  draw_size (2 ^ 53 + 3) (DFloat float_one) = Some (2 ^ 53 + 4).
Proof. vm_compute. reflexivity. Qed.

(** * Further properties *)

(** ** Checked schemas *)

Lemma update_range_idempotent {T : Type} `{Truthy T}
    (min_value max_value : option T) (range : T * T) :
  InitSchema.update_range min_value max_value
    (InitSchema.update_range min_value max_value range)
  = InitSchema.update_range min_value max_value range.
Proof. destruct max_value; reflexivity. Qed.

Lemma normalize_idempotent self :
  InitSchema.normalize (InitSchema.normalize self) = InitSchema.normalize self.
Proof.
  unfold InitSchema.normalize at 1 3.
  cbn [InitSchema.min_holes InitSchema.max_holes InitSchema.num_holes_range
       InitSchema.min_height InitSchema.max_height
       InitSchema.hole_height_range InitSchema.min_width
       InitSchema.max_width InitSchema.hole_width_range
       InitSchema.fill_value InitSchema.mask_fill_value
       InitSchema.normalize].
  rewrite !update_range_idempotent. reflexivity.
Qed.

Lemma check_returned self self' :
  InitSchema.check_holes_and_dimensions self = Returned self' ->
  self' = InitSchema.normalize self /\
  InitSchema.validate (InitSchema.normalize self) = Returned tt.
Proof.
  unfold InitSchema.check_holes_and_dimensions.
  destruct (InitSchema.validate (InitSchema.normalize self)) as [[] | e];
    intros E; [injection E as <- | discriminate E].
  split; reflexivity.
Qed.

(** Checking a checked schema once more returns it as it is: the check
    changes nothing it has produced. *)
Theorem checked_schema_is_fixed_point self self' :
  InitSchema.check_holes_and_dimensions self = Returned self' ->
  InitSchema.check_holes_and_dimensions self' = Returned self'.
Proof.
  intros E. apply check_returned in E. destruct E as [-> V].
  unfold InitSchema.check_holes_and_dimensions.
  rewrite normalize_idempotent, V. reflexivity.
Qed.

Lemma checked_schema_is_fixed_point_witness :
  InitSchema.check_holes_and_dimensions
    (InitSchema.normalize InitSchema.defaults)
  = Returned (InitSchema.normalize InitSchema.defaults).
Proof.
  apply (checked_schema_is_fixed_point InitSchema.defaults). reflexivity.
Defined.

(** A legacy [max_holes] below 1 makes the check raise, whatever the
    legacy minimum and the ranges are: the hole count range becomes
    [(min_holes or max_holes, max_holes)], and its low cannot be at least 1
    and at most [max_holes]. *)
Theorem legacy_max_holes_below_one_raises self mx :
  InitSchema.max_holes self = Some mx -> mx < 1 ->
  InitSchema.check_holes_and_dimensions self
  = Raised (ValueError_order "num_holes_range" 1).
Proof.
  intros E L. unfold InitSchema.check_holes_and_dimensions, InitSchema.validate.
  cbn [InitSchema.normalize InitSchema.num_holes_range]. rewrite E.
  unfold InitSchema.validate_range, InitSchema.int_range, InitSchema.chain_le.
  cbn [InitSchema.update_range fst snd]. rewrite !py_le_int.
  destruct (Z.leb_spec 1 (py_or (InitSchema.min_holes self) mx));
    destruct (Z.leb_spec (py_or (InitSchema.min_holes self) mx) mx);
    try reflexivity; lia.
Qed.

Lemma legacy_max_holes_below_one_raises_witness :
  InitSchema.check_holes_and_dimensions (with_max_holes (Some 0))
  = Raised (ValueError_order "num_holes_range" 1).
Proof.
  apply (legacy_max_holes_below_one_raises (with_max_holes (Some 0)) 0).
  - reflexivity.
  - lia.
Defined.

(** ** Ranges with a nan or an infinity *)

Lemma py_le_nan_right x : py_le x (PyFloat S754_nan) = false.
Proof. destruct x as [z | [s | s | | s m e]]; reflexivity. Qed.

Lemma py_le_nan_left x : py_le (PyFloat S754_nan) x = false.
Proof. destruct x as [z | [s | s | | s m e]]; reflexivity. Qed.

(** A range with a nan, or whose low is an infinity, does not pass
    [validate_range], whatever the minimum: every comparison with a nan is
    false, minus infinity is below every minimum, and plus infinity is
    either above the high or outside [[0, 1]].  So no size range of a checked
    schema has a nan or an infinite low. *)
Theorem non_finite_range_rejected :
  (forall range_value range_name minimum,
      is_nan (fst range_value) \/ is_nan (snd range_value) ->
      InitSchema.validate_range range_value range_name minimum
      = Raised (ValueError_order range_name minimum)) /\
  (forall range_value range_name minimum,
      not_finite (fst range_value) ->
      exists e,
        InitSchema.validate_range range_value range_name minimum = Raised e) /\
  (forall self self',
      InitSchema.check_holes_and_dimensions self = Returned self' ->
      ~ not_finite (fst (InitSchema.hole_height_range self')) /\
      ~ is_nan (snd (InitSchema.hole_height_range self')) /\
      ~ not_finite (fst (InitSchema.hole_width_range self')) /\
      ~ is_nan (snd (InitSchema.hole_width_range self'))).
Proof.
  assert (N : forall range_value range_name minimum,
             is_nan (fst range_value) \/ is_nan (snd range_value) ->
             InitSchema.validate_range range_value range_name minimum
             = Raised (ValueError_order range_name minimum)).
  { intros [lo hi] range_name minimum. unfold is_nan. cbn [fst snd].
    unfold InitSchema.validate_range, InitSchema.chain_le. cbn [fst snd].
    intros [-> | ->].
    - rewrite py_le_nan_right. reflexivity.
    - rewrite py_le_nan_right, andb_false_r. reflexivity. }
  assert (F : forall range_value range_name minimum,
             not_finite (fst range_value) ->
             exists e,
               InitSchema.validate_range range_value range_name minimum
               = Raised e).
  { intros [lo hi] range_name minimum. cbn [fst].
    destruct lo as [z | [s | s | | s m e]]; cbn [not_finite];
      try contradiction; intros _.
    - destruct (InitSchema.validate_range (PyFloat (S754_infinity s), hi)
                  range_name minimum) as [[] | e] eqn:V; [| eauto].
      apply validate_range_returned in V. cbn [fst snd] in V.
      destruct V as [C U]. specialize (U eq_refl).
      unfold InitSchema.all_in_unit, InitSchema.chain_le in U.
      cbn [fst snd forallb] in U.
      destruct s; [| discriminate U].
      unfold InitSchema.chain_le in C. discriminate C.
    - eexists. apply N. left. reflexivity. }
  split; [exact N |]. split; [exact F |].
  intros self self' C. apply check_returned in C. destruct C as [-> V].
  unfold InitSchema.validate in V.
  destruct (InitSchema.validate_range
              (InitSchema.int_range
                 (InitSchema.num_holes_range (InitSchema.normalize self)))
              "num_holes_range" 1) as [[] | e0]; [| discriminate V].
  destruct (InitSchema.validate_range
              (InitSchema.hole_height_range (InitSchema.normalize self))
              "hole_height_range" 0) as [[] | e1] eqn:V1; [| discriminate V].
  repeat split; intros B.
  - destruct (F _ "hole_height_range"%string 0 B) as [e E]. congruence.
  - rewrite (N _ "hole_height_range"%string 0 (or_intror B)) in V1.
    discriminate V1.
  - destruct (F _ "hole_width_range"%string 0 B) as [e E]. congruence.
  - rewrite (N _ "hole_width_range"%string 0 (or_intror B)) in V.
    discriminate V.
Qed.

(** ** Which error the check raises *)

Lemma validate_range_cases range_value range_name minimum :
  (in_order minimum range_value /\ ~ fraction_out_of_unit range_value /\
   InitSchema.validate_range range_value range_name minimum = Returned tt) \/
  (~ in_order minimum range_value /\
   InitSchema.validate_range range_value range_name minimum
   = Raised (ValueError_order range_name minimum)) \/
  (in_order minimum range_value /\ fraction_out_of_unit range_value /\
   InitSchema.validate_range range_value range_name minimum
   = Raised (ValueError_unit_interval range_name)).
Proof.
  unfold in_order, fraction_out_of_unit, InitSchema.validate_range.
  destruct (InitSchema.chain_le (PyInt minimum) (fst range_value)
              (snd range_value)); cbn [negb].
  - destruct (is_float (fst range_value)); cbn [andb].
    + destruct (InitSchema.all_in_unit range_value); cbn [negb].
      * left. repeat split. intros [_ B]. discriminate B.
      * right. right. repeat split.
    + left. repeat split. intros [B _]. discriminate B.
  - right. left. split; [discriminate | reflexivity].
Qed.

Lemma count_range_in_order (r : Z * Z) :
  in_order 1 (InitSchema.int_range r) <-> 1 <= fst r <= snd r.
Proof.
  unfold in_order, InitSchema.int_range, InitSchema.chain_le. cbn [fst snd].
  rewrite !py_le_int, andb_true_iff, !Z.leb_le. reflexivity.
Qed.

(** The check reports the first range, in the order hole count, height,
    width, that fails, and of a range that fails both tests the ordering
    error: a hole count range not in order from 1 gives the ordering error
    of [num_holes_range] whatever the size ranges are; the errors of the
    height range come before those of the width range; and the error about
    [[0, 1]] is raised only of a size range that is in order. *)
Theorem first_failing_range_reported (self : InitSchema.t) :
  let s := InitSchema.normalize self in
  let hh := InitSchema.hole_height_range s in
  let hw := InitSchema.hole_width_range s in
  let check := InitSchema.check_holes_and_dimensions self in
  (~ count_in_order s ->
   check = Raised (ValueError_order "num_holes_range" 1)) /\
  (count_in_order s -> ~ in_order 0 hh ->
   check = Raised (ValueError_order "hole_height_range" 0)) /\
  (count_in_order s -> in_order 0 hh -> fraction_out_of_unit hh ->
   check = Raised (ValueError_unit_interval "hole_height_range")) /\
  (count_in_order s -> in_order 0 hh -> ~ fraction_out_of_unit hh ->
   ~ in_order 0 hw ->
   check = Raised (ValueError_order "hole_width_range" 0)) /\
  (count_in_order s -> in_order 0 hh -> ~ fraction_out_of_unit hh ->
   in_order 0 hw -> fraction_out_of_unit hw ->
   check = Raised (ValueError_unit_interval "hole_width_range")) /\
  (count_in_order s -> in_order 0 hh -> ~ fraction_out_of_unit hh ->
   in_order 0 hw -> ~ fraction_out_of_unit hw ->
   check = Returned s).
Proof.
  intros s hh hw check. subst check.
  unfold InitSchema.check_holes_and_dimensions, InitSchema.validate.
  fold s. fold hh. fold hw.
  pose proof (count_range_in_order (InitSchema.num_holes_range s)) as Cn.
  fold (count_in_order s) in Cn.
  destruct (validate_range_cases
              (InitSchema.int_range (InitSchema.num_holes_range s))
              "num_holes_range" 1)
    as [(O0 & _ & ->) | [(O0 & ->) | (_ & [B _] & _)]];
    [| | discriminate B].
  - destruct (validate_range_cases hh "hole_height_range" 0)
      as [(O1 & U1 & ->) | [(O1 & ->) | (O1 & U1 & ->)]];
      [| repeat split; intros; tauto | repeat split; intros; tauto].
    destruct (validate_range_cases hw "hole_width_range" 0)
      as [(O2 & U2 & ->) | [(O2 & ->) | (O2 & U2 & ->)]];
      repeat split; intros; tauto.
  - repeat split; intros; tauto.
Qed.

(** ** What a checked schema gives the sampler *)

Lemma check_valid_ranges self self' :
  InitSchema.check_holes_and_dimensions self = Returned self' ->
  valid_ranges (init self').
Proof.
  intros C. apply check_returned in C. destruct C as [-> V].
  unfold InitSchema.validate in V. unfold valid_ranges, init.
  cbn [num_holes_range hole_height_range hole_width_range].
  destruct (InitSchema.validate_range
              (InitSchema.int_range
                 (InitSchema.num_holes_range (InitSchema.normalize self)))
              "num_holes_range" 1) as [[] | e0]; [| discriminate V].
  destruct (InitSchema.validate_range
              (InitSchema.hole_height_range (InitSchema.normalize self))
              "hole_height_range" 0) as [[] | e1]; [| discriminate V].
  destruct (InitSchema.validate_range
              (InitSchema.hole_width_range (InitSchema.normalize self))
              "hole_width_range" 0) as [[] | e2]; [| discriminate V].
  repeat split.
Qed.

Lemma valid_int_range a b range_name minimum :
  InitSchema.validate_range (PyInt a, PyInt b) range_name minimum
    = Returned tt ->
  minimum <= a <= b.
Proof.
  intros V. apply validate_range_low in V. cbn [fst snd] in V.
  rewrite !py_le_int in V. destruct V as [V1 V2].
  apply Z.leb_le in V1, V2. lia.
Qed.

(** The transform built from a schema that passed the check has the
    ranges the sampler relies on: a hole count range with
    [1 <= low <= high], size ranges of two integers with
    [0 <= low <= high], and size ranges of two floats with
    [0 <= low <= high <= 1]. *)
Theorem checked_schema_bounds self self' :
  InitSchema.check_holes_and_dimensions self = Returned self' ->
  valid_ranges (init self') /\
  1 <= fst (num_holes_range (init self'))
    <= snd (num_holes_range (init self')) /\
  (forall a b,
      hole_height_range (init self') = (PyInt a, PyInt b) -> 0 <= a <= b) /\
  (forall a b,
      hole_width_range (init self') = (PyInt a, PyInt b) -> 0 <= a <= b) /\
  (forall lo hi,
      hole_height_range (init self') = (PyFloat lo, PyFloat hi) ->
      py_le (PyInt 0) (PyFloat lo) = true /\ SFleb lo hi = true /\
      py_le (PyFloat hi) (PyInt 1) = true) /\
  (forall lo hi,
      hole_width_range (init self') = (PyFloat lo, PyFloat hi) ->
      py_le (PyInt 0) (PyFloat lo) = true /\ SFleb lo hi = true /\
      py_le (PyFloat hi) (PyInt 1) = true).
Proof.
  intros C. pose proof (check_valid_ranges _ _ C) as V.
  split; [exact V |]. destruct V as (Vn & Vh & Vw).
  split; [| repeat split].
  - destruct (num_holes_range (init self')) as [n1 n2].
    apply valid_int_range in Vn. exact Vn.
  - rewrite H in Vh. apply valid_int_range in Vh. lia.
  - rewrite H in Vh. apply valid_int_range in Vh. lia.
  - rewrite H in Vw. apply valid_int_range in Vw. lia.
  - rewrite H in Vw. apply valid_int_range in Vw. lia.
  - rewrite H in Vh. apply valid_fraction_range in Vh. apply Vh.
  - rewrite H in Vh. apply valid_fraction_range in Vh. apply Vh.
  - rewrite H in Vh. apply valid_fraction_range in Vh. apply Vh.
  - rewrite H in Vw. apply valid_fraction_range in Vw. apply Vw.
  - rewrite H in Vw. apply valid_fraction_range in Vw. apply Vw.
  - rewrite H in Vw. apply valid_fraction_range in Vw. apply Vw.
Qed.

Lemma checked_schema_bounds_witness :
  1 <= fst (num_holes_range
              (init (InitSchema.normalize InitSchema.defaults)))
    <= snd (num_holes_range
              (init (InitSchema.normalize InitSchema.defaults))).
Proof.
  refine (proj1 (proj2 (checked_schema_bounds InitSchema.defaults _ _))).
  reflexivity.
Defined.

(** A transform built from a checked schema makes at least one hole, and
    at most the high of its hole count range, on every run that
    returns. *)
Theorem checked_schema_makes_a_hole self self' height width tape holes rest :
  InitSchema.check_holes_and_dimensions self = Returned self' ->
  run (get_params_dependent_on_targets (init self') height width) tape
    = Some (Returned holes, rest) ->
  holes <> [] /\
  1 <= Z.of_nat (List.length holes) <= snd (num_holes_range (init self')).
Proof.
  intros C R. pose proof (check_valid_ranges _ _ C) as (Vn & _ & _).
  destruct (num_holes_range (init self')) as [n1 n2] eqn:En.
  apply valid_int_range in Vn. cbn [fst snd] in Vn. cbn [snd].
  apply (run_sampler_returned (init self') height width (fun _ _ => True))
    in R; [| intros; exact I].
  destruct R as (n & body & ss & -> & Bn & RS & -> & _).
  rewrite En in Bn. cbn [fst snd] in Bn.
  apply read_samples_length in RS. rewrite length_map, RS.
  split; [| lia].
  destruct ss as [| s ss]; [cbn in RS; lia | discriminate].
Qed.

Lemma checked_schema_makes_a_hole_witness :
  [(1, 2, 4, 4)] <> [] /\
  1 <= Z.of_nat (List.length [(1, 2, 4, 4)])
    <= snd (num_holes_range
              (init (ranges_only (1, 3) (PyInt 2, PyInt 2)
                       (PyInt 3, PyInt 3)))).
Proof.
  refine (checked_schema_makes_a_hole
            (ranges_only (1, 3) (PyInt 2, PyInt 2) (PyInt 3, PyInt 3))
            _ 10 10
            [DInt 1; DInt 2; DInt 3; DInt 2; DInt 1] [(1, 2, 4, 4)] [] _ _).
  - reflexivity.
  - vm_compute. reflexivity.
Defined.

(** ** The draws a run consumes *)

Lemma read_samples_consumed n height width : forall t ss t',
  read_samples n height width t = Some (ss, t') ->
  exists used, t = used ++ t' /\ List.length used = (4 * n)%nat.
Proof.
  induction n as [| n IH]; intros t ss t' R; cbn [read_samples] in R.
  - injection R as <- <-. exists []. split; reflexivity.
  - destruct t as [| dh [| dw [| [y | ?] [| [x | ?] t]]]]; try discriminate R.
    destruct (draw_size height dh), (draw_size width dw); try discriminate R.
    destruct (read_samples n height width t) as [[ss' r] |] eqn:R';
      [| discriminate R].
    injection R as <- <-.
    destruct (IH _ _ _ R') as (used & -> & L).
    exists (dh :: dw :: DInt y :: DInt x :: used).
    split; [reflexivity |]. cbn [List.length]. lia.
Qed.

(** A run that returns [n] holes has consumed exactly [1 + 4 * n] draws
    off the front of the tape: the hole count, and four draws a hole. *)
Theorem four_draws_a_hole self height width tape holes rest :
  run (get_params_dependent_on_targets self height width) tape
    = Some (Returned holes, rest) ->
  exists used,
    tape = used ++ rest /\
    List.length used = (1 + 4 * List.length holes)%nat.
Proof.
  intros R.
  apply (run_sampler_returned self height width (fun _ _ => True))
    in R; [| intros; exact I].
  destruct R as (n & body & ss & -> & _ & RS & -> & _).
  pose proof (read_samples_length _ _ _ _ _ _ RS) as L.
  destruct (read_samples_consumed _ _ _ _ _ _ RS) as (used & -> & U).
  exists (DInt n :: used). split; [reflexivity |].
  rewrite length_map, L. cbn [List.length]. lia.
Qed.

Lemma four_draws_a_hole_witness :
  exists used,
    two_holes_tape = used ++ [] /\
    List.length used
    = Nat.add 1 (Nat.mul 4 (List.length [(0, 5, 12, 8); (2, 1, 5, 3)])).
Proof.
  refine (four_draws_a_hole two_holes 10 12 two_holes_tape _ [] _).
  vm_compute. reflexivity.
Defined.

(** ** Integer ranges *)

(** With two integer size ranges, the height of every hole of a run that
    returns lies between the low of the height range and the smaller of
    its high and the image height, and the width likewise: the upper
    bounds are clamped to the image. *)
Theorem integer_hole_sizes_in_range
    self height width a b c d tape holes rest :
  hole_height_range self = (PyInt a, PyInt b) ->
  hole_width_range self = (PyInt c, PyInt d) ->
  run (get_params_dependent_on_targets self height width) tape
    = Some (Returned holes, rest) ->
  Forall (fun hole =>
            a <= hole_height hole <= Z.min b height /\
            c <= hole_width hole <= Z.min d width) holes.
Proof.
  intros Eh Ew R.
  apply (run_sampler_returned self height width
           (fun hh hw => a <= hh <= Z.min b height /\
                         c <= hw <= Z.min d width)) in R.
  - destruct R as (n & body & ss & -> & _ & _ & -> & F).
    apply Forall_map. eapply Forall_impl; [| exact F].
    intros s [S _]. unfold hole_height, hole_width, hole_of_sample. lia.
  - rewrite Eh, Ew. intros t hh hw t' D.
    apply int_branch_sizes in D. apply D.
Qed.

Lemma integer_hole_sizes_in_range_witness :
  Forall (fun hole =>
            2 <= hole_height hole <= Z.min 4 10 /\
            3 <= hole_width hole <= Z.min 30 12)
         [(0, 5, 12, 8); (2, 1, 5, 3)].
Proof.
  refine (integer_hole_sizes_in_range two_holes 10 12 2 4 3 30
            two_holes_tape _ [] _ _ _).
  - reflexivity.
  - reflexivity.
  - vm_compute. reflexivity.
Defined.

Lemma run_randint_empty lo hi t :
  hi <= lo ->
  run (randint (PyInt lo) (PyInt hi)) t = Some (Raised ValueError_low_ge_high, t).
Proof.
  intros L. unfold randint. cbn [int_of_scalar].
  destruct (Z.ltb_spec lo hi); [lia | reflexivity].
Qed.

Lemma run_randint_cases lo hi t o t' :
  run (randint (PyInt lo) (PyInt hi)) t = Some (o, t') ->
  (hi <= lo /\ o = Raised ValueError_low_ge_high /\ t' = t) \/
  (exists z, lo <= z < hi /\ o = Returned z /\ t = DInt z :: t').
Proof.
  unfold randint. cbn [int_of_scalar].
  destruct (Z.ltb_spec lo hi) as [L | L]; cbn [run].
  - destruct t as [| [z | f] t]; try discriminate.
    unfold int_answer_ok.
    destruct (Z.leb_spec lo z), (Z.leb_spec z (hi - 1)); cbn [andb];
      try discriminate.
    intros E. injection E as <- <-. right. exists z.
    repeat split; lia.
  - intros E. injection E as <- <-. left. repeat split. exact L.
Qed.

(** With two integer size ranges, a low of the height range above the
    image height, or a low of the width range above the image width, makes
    every run that completes raise the error of a draw from an empty
    interval, when at least one hole is to be made: the high is clamped to
    the image and falls below the low. *)
Theorem integer_low_above_dimension_raises self height width a b c d :
  hole_height_range self = (PyInt a, PyInt b) ->
  hole_width_range self = (PyInt c, PyInt d) ->
  height < a \/ width < c ->
  1 <= fst (num_holes_range self) <= snd (num_holes_range self) ->
  raises_on_every_run ValueError_low_ge_high
    (get_params_dependent_on_targets self height width) /\
  exists tape rest,
    run (get_params_dependent_on_targets self height width) tape
      = Some (Raised ValueError_low_ge_high, rest).
Proof.
  intros Eh Ew B Hn.
  assert (D : forall t o t',
             run (calculate_hole_dimensions height width
                    (PyInt a, PyInt b) (PyInt c, PyInt d)) t = Some (o, t') ->
             o = Raised ValueError_low_ge_high).
  { intros t o t'. unfold calculate_hole_dimensions.
    cbn [fst snd is_int]. rewrite !py_min_int. cbn [py_succ].
    rewrite run_bind.
    destruct (run (randint (PyInt a) (PyInt (Z.min b height + 1))) t)
      as [[[hh | e] t1] |] eqn:R1; [| | discriminate].
    - apply run_randint_cases in R1.
      destruct R1 as [(_ & K & _) | (z & Hz & K & ->)]; [discriminate K |].
      injection K as <-. rewrite run_bind.
      destruct (run (randint (PyInt c) (PyInt (Z.min d width + 1))) t1)
        as [[[hw | e] t2] |] eqn:R2; [| | discriminate].
      + apply run_randint_cases in R2.
        destruct R2 as [(_ & K & _) | (z & Hz' & K & ->)]; [discriminate K |].
        injection K as <-. lia.
      + apply run_randint_cases in R2.
        destruct R2 as [(_ & K & _) | (z & _ & K & _)]; [| discriminate K].
        injection K as ->. intros E. injection E as <- _. reflexivity.
    - apply run_randint_cases in R1.
      destruct R1 as [(_ & K & _) | (z & _ & K & _)]; [| discriminate K].
      injection K as ->. intros E. injection E as <- _. reflexivity. }
  assert (L : forall n acc t o t',
             run (holes_loop (S n) height width
                    (PyInt a, PyInt b) (PyInt c, PyInt d) acc) t
               = Some (o, t') ->
             o = Raised ValueError_low_ge_high).
  { intros n acc t o t'. cbn [holes_loop]. rewrite run_bind.
    destruct (run (calculate_hole_dimensions height width
                     (PyInt a, PyInt b) (PyInt c, PyInt d)) t)
      as [[[[hh hw] | e] t1] |] eqn:R1; [| | discriminate].
    - apply D in R1. discriminate R1.
    - apply D in R1. injection R1 as ->.
      intros E. injection E as <- _. reflexivity. }
  destruct (num_holes_range self) as [n1 n2] eqn:En. cbn [fst snd] in Hn.
  split.
  - intros t o t'. unfold get_params_dependent_on_targets.
    rewrite Eh, Ew, En. cbn [fst snd]. rewrite run_bind.
    destruct (run (randint (PyInt n1) (PyInt (n2 + 1))) t)
      as [[[n | e] t1] |] eqn:R1; [| | discriminate].
    + apply run_randint_cases in R1.
      destruct R1 as [(_ & K & _) | (z & Hz & K & ->)]; [discriminate K |].
      injection K as <-.
      destruct (Z.to_nat n) as [| k] eqn:Ek; [lia |]. apply L.
    + apply run_randint_cases in R1.
      destruct R1 as [(_ & K & _) | (z & _ & K & _)]; [| discriminate K].
      injection K as ->. intros E. injection E as <- _. reflexivity.
  - assert (S1 : Z.to_nat n1 = S (Nat.pred (Z.to_nat n1))) by lia.
    unfold get_params_dependent_on_targets.
    rewrite Eh, Ew, En. cbn [fst snd].
    destruct (Z.lt_ge_cases (Z.min b height) a) as [E1 | E1].
    + exists [DInt n1], [].
      rewrite run_bind, run_randint_ok by lia. rewrite S1.
      cbn [holes_loop]. rewrite run_bind.
      unfold calculate_hole_dimensions.
      cbn [fst snd is_int]. rewrite !py_min_int. cbn [py_succ].
      rewrite run_bind, run_randint_empty by lia. reflexivity.
    + exists [DInt n1; DInt a], [].
      rewrite run_bind, run_randint_ok by lia. rewrite S1.
      cbn [holes_loop]. rewrite run_bind.
      unfold calculate_hole_dimensions.
      cbn [fst snd is_int]. rewrite !py_min_int. cbn [py_succ].
      rewrite run_bind, run_randint_ok by lia.
      rewrite run_bind, run_randint_empty by lia. reflexivity.
Qed.

Lemma integer_low_above_dimension_raises_witness :
  exists tape rest,
    run (get_params_dependent_on_targets tall_holes 20 20) tape
      = Some (Raised ValueError_low_ge_high, rest).
Proof.
  refine (proj2 (integer_low_above_dimension_raises tall_holes 20 20
                   50 60 3 30 _ _ _ _)).
  - reflexivity.
  - reflexivity.
  - left. lia.
  - simpl. lia.
Defined.

(** ** The targets dictionary *)

Lemma getitem_key_error params key e :
  Params.getitem params key = inl e <->
  e = Params.KeyError key /\ forall v, ~ In (key, v) params.
Proof.
  induction params as [| [k v] params IH]; cbn [Params.getitem].
  - split.
    + intros E. injection E as <-. split; [reflexivity | intros v []].
    + intros [-> _]. reflexivity.
  - destruct (String.eqb_spec k key) as [-> | N].
    + split; [discriminate |]. intros [_ K]. exfalso.
      apply (K v). left. reflexivity.
    + rewrite IH. split; intros [E K]; (split; [exact E |]); intros v' I.
      * destruct I as [I | I]; [congruence | exact (K v' I)].
      * apply (K v'). right. exact I.
Qed.

Lemma unpack_two_cases shape :
  match shape with
  | height :: width :: _ => Params.unpack_two shape = inr (height, width)
  | _ => Params.unpack_two shape
         = inl (Params.ValueError_unpack 2 (List.length shape))
  end.
Proof. destruct shape as [| h [| w shape]]; reflexivity. Qed.

(** The method fails with a [KeyError] exactly when the targets have no
    entry ["image"], and then the key of the error is ["image"]; it fails
    at the unpacking exactly when the image has fewer than two dimensions;
    both before any draw is made.  With every target of
    [targets_as_params] present and an image of two dimensions or more it
    goes on to the draws. *)
Theorem image_target_required (self : CoarseDropout) (params : Params.t) :
  (forall key,
      Params.get_params_dependent_on_targets self params
        = inl (Params.KeyError key) <->
      key = "image"%string /\ forall v, ~ In ("image"%string, v) params) /\
  (forall expected got,
      Params.get_params_dependent_on_targets self params
        = inl (Params.ValueError_unpack expected got) <->
      exists img, Params.getitem params "image" = inr img /\
                  expected = 2%nat /\ got = List.length (Params.shape img) /\
                  (got < 2)%nat) /\
  ((forall key, In key Params.targets_as_params ->
                exists img, Params.getitem params key = inr img /\
                            (2 <= List.length (Params.shape img))%nat) ->
   exists m, Params.get_params_dependent_on_targets self params = inr m).
Proof.
  unfold Params.get_params_dependent_on_targets.
  destruct (Params.getitem params "image") as [e | img] eqn:G.
  - pose proof G as G'. apply getitem_key_error in G'.
    destruct G' as [-> K].
    split; [| split].
    + intros key. split.
      * intros E. injection E as <-. split; [reflexivity | exact K].
      * intros [-> _]. reflexivity.
    + intros expected got. split; [discriminate |].
      intros (img & E & _). discriminate E.
    + intros A. destruct (A "image"%string) as (img & E & _);
        [left; reflexivity | congruence].
  - pose proof (unpack_two_cases (Params.shape img)) as U.
    assert (NK : forall key,
               ~ (key = "image"%string /\
                  forall v, ~ In ("image"%string, v) params)).
    { intros key [_ K].
      assert (E : Params.getitem params "image"
                  = inl (Params.KeyError "image"))
        by (apply getitem_key_error; split; [reflexivity | exact K]).
      congruence. }
    destruct (Params.shape img) as [| h [| w more]] eqn:S; rewrite U;
      cbn [List.length].
    + split; [| split].
      * intros key. split; [discriminate | intros K; destruct (NK key K)].
      * intros expected got. split.
        -- intros E. injection E as <- <-. exists img. rewrite S.
           cbn [List.length]. repeat split. lia.
        -- intros (img' & E & -> & -> & L). injection E as <-.
           rewrite S. reflexivity.
      * intros A. destruct (A "image"%string) as (img' & E & L);
          [left; reflexivity |].
        rewrite G in E. injection E as <-. rewrite S in L.
        cbn [List.length] in L. lia.
    + split; [| split].
      * intros key. split; [discriminate | intros K; destruct (NK key K)].
      * intros expected got. split.
        -- intros E. injection E as <- <-. exists img. rewrite S.
           cbn [List.length]. repeat split. lia.
        -- intros (img' & E & -> & -> & L). injection E as <-.
           rewrite S. reflexivity.
      * intros A. destruct (A "image"%string) as (img' & E & L);
          [left; reflexivity |].
        rewrite G in E. injection E as <-. rewrite S in L.
        cbn [List.length] in L. lia.
    + split; [| split].
      * intros key. split; [discriminate | intros K; destruct (NK key K)].
      * intros expected got. split; [discriminate |].
        intros (img' & E & -> & -> & L). injection E as <-.
        rewrite S in L. cbn [List.length] in L. lia.
      * intros _. eexists. reflexivity.
Qed.

(** ** Keypoints and lists of holes *)

Lemma filter_all {A : Type} (f : A -> bool) (l : list A) :
  (forall a, In a l -> f a = true) -> filter f l = l.
Proof.
  induction l as [| a l IH]; intros F; cbn [filter]; [reflexivity |].
  rewrite (F a) by (left; reflexivity). f_equal.
  apply IH. intros b I. apply F. right. exact I.
Qed.

Lemma filter_filter {A : Type} (f g : A -> bool) (l : list A) :
  filter g (filter f l) = filter (fun a => f a && g a) l.
Proof.
  induction l as [| a l IH]; cbn [filter]; [reflexivity |].
  destruct (f a); cbn [andb filter]; rewrite IH; reflexivity.
Qed.

Lemma existsb_same_members {A : Type} (f : A -> bool) (l1 l2 : list A) :
  (forall a, In a l1 <-> In a l2) -> existsb f l1 = existsb f l2.
Proof.
  intros M. apply eq_true_iff_eq. rewrite !existsb_exists.
  split; intros (a & I & F); exists a; (split; [apply M; exact I | exact F]).
Qed.

(** With no hole, every keypoint is kept, in place; and filtering again
    with the same holes removes nothing more. *)
Theorem keypoints_kept_without_holes :
  (forall keypoints, apply_to_keypoints keypoints [] = keypoints) /\
  (forall holes, apply_to_keypoints [] holes = []) /\
  (forall keypoints holes,
      apply_to_keypoints (apply_to_keypoints keypoints holes) holes
      = apply_to_keypoints keypoints holes).
Proof.
  split; [| split].
  - intros keypoints. unfold apply_to_keypoints. apply filter_all.
    reflexivity.
  - reflexivity.
  - intros keypoints holes. unfold apply_to_keypoints.
    apply filter_all. intros k I. apply filter_In in I. apply I.
Qed.

(** Filtering by one list of holes and then by another is filtering once
    by the two lists together. *)
Theorem keypoints_holes_compose keypoints holes1 holes2 :
  apply_to_keypoints (apply_to_keypoints keypoints holes1) holes2
  = apply_to_keypoints keypoints (holes1 ++ holes2).
Proof.
  unfold apply_to_keypoints. rewrite filter_filter.
  apply filter_ext. intros k. rewrite existsb_app, negb_orb. reflexivity.
Qed.

(** The keypoints kept depend on which holes there are, not on their
    order or on how often one occurs. *)
Theorem keypoints_holes_as_set keypoints holes1 holes2 :
  (forall hole, In hole holes1 <-> In hole holes2) ->
  apply_to_keypoints keypoints holes1 = apply_to_keypoints keypoints holes2.
Proof.
  intros M. unfold apply_to_keypoints. apply filter_ext. intros k.
  f_equal. apply existsb_same_members. exact M.
Qed.

Lemma keypoints_holes_as_set_witness :
  apply_to_keypoints [keypoint_at 1 1; keypoint_at 3 3; keypoint_at 7 7]
                     [(2, 2, 6, 6); (0, 0, 2, 2)]
  = apply_to_keypoints [keypoint_at 1 1; keypoint_at 3 3; keypoint_at 7 7]
                       [(0, 0, 2, 2); (2, 2, 6, 6); (0, 0, 2, 2)].
Proof.
  apply (keypoints_holes_as_set
           [keypoint_at 1 1; keypoint_at 3 3; keypoint_at 7 7]
           [(2, 2, 6, 6); (0, 0, 2, 2)]
           [(0, 0, 2, 2); (2, 2, 6, 6); (0, 0, 2, 2)]).
  intros hole. simpl. tauto.
Defined.

(** ** Rounding a product that is at least an integer *)

Lemma scaled_ge_nonneg_exp m e H :
  0 <= e -> (scaled_ge m e H <-> H <= m * 2 ^ e).
Proof.
  intros He. unfold scaled_ge.
  rewrite (Z.max_l e 0), (Z.max_r (- e) 0) by lia. simpl. lia.
Qed.

Lemma scaled_ge_nonpos_exp m e H :
  e <= 0 -> (scaled_ge m e H <-> H * 2 ^ (- e) <= m).
Proof.
  intros He. unfold scaled_ge.
  rewrite (Z.max_r e 0), (Z.max_l (- e) 0) by lia. simpl. lia.
Qed.

Lemma scaled_ge_iff m e H K :
  0 <= K -> 0 <= e + K ->
  (scaled_ge m e H <-> H * 2 ^ K <= m * 2 ^ (e + K)).
Proof.
  intros HK HeK.
  assert (PK : 0 < 2 ^ K) by (apply Z.pow_pos_nonneg; lia).
  destruct (Z.le_gt_cases 0 e) as [He | He].
  - rewrite scaled_ge_nonneg_exp by lia. rewrite Z.pow_add_r by lia.
    assert (0 < 2 ^ e) by (apply Z.pow_pos_nonneg; lia). nia.
  - rewrite scaled_ge_nonpos_exp by lia.
    assert (E : 2 ^ K = 2 ^ (- e) * 2 ^ (e + K)).
    { rewrite <- Z.pow_add_r by lia. f_equal. lia. }
    rewrite E.
    assert (0 < 2 ^ (e + K)) by (apply Z.pow_pos_nonneg; lia).
    assert (0 < 2 ^ (- e)) by (apply Z.pow_pos_nonneg; lia). nia.
Qed.

Lemma scaled_ge_weaken m e H H' :
  H' <= H -> scaled_ge m e H -> scaled_ge m e H'.
Proof.
  unfold scaled_ge. intros L S.
  assert (0 < 2 ^ Z.max (- e) 0) by (apply Z.pow_pos_nonneg; lia). nia.
Qed.

Lemma scaled_ge_mantissa m m' e H :
  m <= m' -> scaled_ge m e H -> scaled_ge m' e H.
Proof.
  unfold scaled_ge. intros L S.
  assert (0 < 2 ^ Z.max e 0) by (apply Z.pow_pos_nonneg; lia). nia.
Qed.

Lemma scaled_ge_positive m e H : 0 < H -> scaled_ge m e H -> 0 < m.
Proof.
  unfold scaled_ge. intros HH S.
  assert (0 < 2 ^ Z.max e 0) by (apply Z.pow_pos_nonneg; lia).
  assert (0 < 2 ^ Z.max (- e) 0) by (apply Z.pow_pos_nonneg; lia). nia.
Qed.

Lemma scaled_ge_mul a ea A b eb B :
  0 <= A -> 0 <= B ->
  scaled_ge a ea A -> scaled_ge b eb B ->
  scaled_ge (a * b) (ea + eb) (A * B).
Proof.
  intros HA HB Sa Sb.
  set (K1 := Z.max (- ea) 0). set (K2 := Z.max (- eb) 0).
  rewrite (scaled_ge_iff a ea A K1) in Sa by (unfold K1; lia).
  rewrite (scaled_ge_iff b eb B K2) in Sb by (unfold K2; lia).
  rewrite (scaled_ge_iff (a * b) (ea + eb) (A * B) (K1 + K2))
    by (unfold K1, K2; lia).
  replace (ea + eb + (K1 + K2)) with ((ea + K1) + (eb + K2)) by lia.
  rewrite !Z.pow_add_r by (unfold K1, K2; lia).
  assert (0 < 2 ^ K1) by (apply Z.pow_pos_nonneg; unfold K1; lia).
  assert (0 < 2 ^ K2) by (apply Z.pow_pos_nonneg; unfold K2; lia).
  assert (M : A * 2 ^ K1 * (B * 2 ^ K2)
              <= a * 2 ^ (ea + K1) * (b * 2 ^ (eb + K2)))
    by (apply Z.mul_le_mono_nonneg; nia).
  replace (A * B * (2 ^ K1 * 2 ^ K2))
    with (A * 2 ^ K1 * (B * 2 ^ K2)) by ring.
  replace (a * b * (2 ^ (ea + K1) * 2 ^ (eb + K2)))
    with (a * 2 ^ (ea + K1) * (b * 2 ^ (eb + K2))) by ring.
  exact M.
Qed.

Lemma trunc_mag_ge m e H :
  scaled_ge (Z.pos m) e H -> H <= trunc_mag m e.
Proof.
  unfold trunc_mag. destruct (Z.leb_spec 0 e) as [He | He].
  - rewrite scaled_ge_nonneg_exp by lia. trivial.
  - rewrite scaled_ge_nonpos_exp by lia. intros L.
    assert (0 < 2 ^ (- e)) by (apply Z.pow_pos_nonneg; lia).
    apply Z.div_le_lower_bound; [lia | nia].
Qed.

(** Shifting right drops the low bits. *)
Lemma shr_1_floor x : 0 <= shr_m x -> shr_m (shr_1 x) = shr_m x / 2.
Proof.
  destruct x as [m r s]. cbn [shr_m]. intros Hm. unfold shr_1.
  destruct m as [| [p | p |] | p]; cbn [shr_m]; try lia.
  - reflexivity.
  - apply (Z.div_unique _ 2 _ 1); lia.
  - apply (Z.div_unique _ 2 _ 0); lia.
  - reflexivity.
Qed.

Lemma iter_pos_floor p : forall x,
  0 <= shr_m x -> shr_m (iter_pos shr_1 p x) = shr_m x / 2 ^ Z.pos p.
Proof.
  assert (D : forall a j k, 0 <= a -> 0 < j -> 0 < k ->
                            a / 2 ^ j / 2 ^ k = a / 2 ^ (j + k)).
  { intros a j k Ha Hj Hk. rewrite Z.pow_add_r by lia.
    apply Z.div_div; [| apply Z.pow_pos_nonneg; lia].
    assert (0 < 2 ^ j) by (apply Z.pow_pos_nonneg; lia). lia. }
  assert (N : forall a k, 0 <= a -> 0 < k -> 0 <= a / 2 ^ k).
  { intros a k Ha Hk. apply Z.div_pos; [lia |].
    apply Z.pow_pos_nonneg; lia. }
  induction p as [p IH | p IH |]; intros x Hx; cbn [iter_pos].
  - assert (H1 : 0 <= shr_m (shr_1 x)).
    { rewrite shr_1_floor by exact Hx. apply Z.div_pos; lia. }
    pose proof (IH _ H1) as E1.
    assert (H2 : 0 <= shr_m (iter_pos shr_1 p (shr_1 x))).
    { rewrite E1. apply N; lia. }
    rewrite (IH _ H2), E1, shr_1_floor by exact Hx.
    change (shr_m x / 2) with (shr_m x / 2 ^ 1).
    rewrite (D (shr_m x) 1 (Z.pos p)) by lia.
    rewrite (D (shr_m x) (1 + Z.pos p) (Z.pos p)) by lia.
    f_equal. f_equal. lia.
  - pose proof (IH _ Hx) as E1.
    assert (H2 : 0 <= shr_m (iter_pos shr_1 p x)).
    { rewrite E1. apply N; lia. }
    rewrite (IH _ H2), E1.
    rewrite (D (shr_m x) (Z.pos p) (Z.pos p)) by lia.
    f_equal. f_equal. lia.
  - rewrite shr_1_floor by exact Hx. reflexivity.
Qed.

Lemma shr_fexp_floor m e mrs e' :
  0 <= m ->
  shr_fexp prec emax m e loc_Exact = (mrs, e') ->
  exists k, 0 <= k /\ e' = e + k /\ shr_m mrs = m / 2 ^ k /\
            fexp prec emax (Zdigits2 m + e) <= e' /\
            (0 < k -> e' = fexp prec emax (Zdigits2 m + e)).
Proof.
  intros Hm. unfold shr_fexp, shr. cbn [shr_record_of_loc].
  destruct (fexp prec emax (Zdigits2 m + e) - e) as [| p | p] eqn:N;
    intros E; injection E as <- <-.
  - exists 0. cbn [shr_m]. rewrite Z.div_1_r. repeat split; lia.
  - exists (Z.pos p). rewrite iter_pos_floor by exact Hm. cbn [shr_m].
    repeat split; lia.
  - exists 0. cbn [shr_m]. rewrite Z.div_1_r. repeat split; lia.
Qed.

Lemma Zdigits2_upper m : 0 <= m -> m < 2 ^ Zdigits2 m.
Proof.
  destruct m as [| p | p]; intros Hm; cbn [Zdigits2]; try lia.
  apply digits2_pos_upper.
Qed.

Lemma Zdigits2_lower m : 0 < m -> 2 ^ (Zdigits2 m - 1) <= m.
Proof.
  destruct m as [| p | p]; intros Hm; cbn [Zdigits2]; try lia.
  apply digits2_pos_lower.
Qed.

(** What [shr_fexp] keeps of a value that is at least the integer [H]:
    the mantissa fits 53 bits, and the value is still at least [H]. *)
Lemma shr_fexp_ge m e H mrs e' :
  0 <= m -> 0 < H <= 2 ^ 53 -> scaled_ge m e H ->
  shr_fexp prec emax m e loc_Exact = (mrs, e') ->
  0 <= shr_m mrs < 2 ^ 53 /\ scaled_ge (shr_m mrs) e' H.
Proof.
  intros Hm HH S E.
  apply shr_fexp_floor in E; [| exact Hm].
  destruct E as (k & Hk & -> & -> & F & Fk).
  assert (Pk : 0 < 2 ^ k) by (apply Z.pow_pos_nonneg; lia).
  assert (Mp : 0 < m) by (eapply scaled_ge_positive; [| exact S]; lia).
  pose proof (Zdigits2_upper m Hm) as U.
  pose proof (Zdigits2_lower m Mp) as L.
  set (d := Zdigits2 m) in *.
  assert (Hd : 0 < d).
  { unfold d. destruct m; cbn [Zdigits2]; lia. }
  unfold fexp, emin, prec, emax in F, Fk.
  split; [split |].
  - apply Z.div_pos; lia.
  - apply Z.div_lt_upper_bound; [lia |].
    eapply Z.lt_le_trans; [exact U |].
    rewrite <- Z.pow_add_r by lia. apply Z.pow_le_mono_r; lia.
  - destruct (Z.eq_dec k 0) as [-> | Nk].
    + rewrite Z.div_1_r, Z.add_0_r. exact S.
    + specialize (Fk ltac:(lia)).
      destruct (Z.le_gt_cases (e + k) 0) as [Le | Gt].
      * rewrite scaled_ge_nonpos_exp by lia.
        rewrite scaled_ge_nonpos_exp in S by lia.
        apply Z.div_le_lower_bound; [lia |].
        replace (- e) with (k + - (e + k)) in S by lia.
        rewrite Z.pow_add_r in S by lia. lia.
      * rewrite scaled_ge_nonneg_exp by lia.
        assert (Ek : k = d - 53) by lia.
        assert (B : 2 ^ 52 <= m / 2 ^ k).
        { apply Z.div_le_lower_bound; [lia |].
          rewrite <- Z.pow_add_r by lia.
          replace (k + 52) with (d - 1) by lia. exact L. }
        assert (T : 2 ^ 1 <= 2 ^ (e + k)) by (apply Z.pow_le_mono_r; lia).
        change (2 ^ 1) with 2 in T.
        change (2 ^ 53) with (2 ^ 52 * 2) in HH. nia.
Qed.

(** Rounding an exact value that is at least the integer [H], with [H]
    at most [2^53], gives a value that is at least [H]. *)
Lemma binary_round_aux_ge mx ex H :
  0 <= mx -> 0 < H <= 2 ^ 53 -> scaled_ge mx ex H ->
  match binary_round_aux prec emax false mx ex loc_Exact with
  | S754_finite s m e =>
      s = false /\ scaled_ge (Z.pos m) e H /\ Z.pos m < 2 ^ 53
  | S754_infinity s => s = false
  | _ => False
  end.
Proof.
  intros Hm HH S. unfold binary_round_aux.
  destruct (shr_fexp prec emax mx ex loc_Exact) as [mrs' e'] eqn:S1.
  destruct (shr_fexp_ge _ _ _ _ _ Hm HH S S1) as [B1 G1].
  set (q := round_nearest_even (shr_m mrs') (loc_of_shr_record mrs')).
  assert (Q : shr_m mrs' <= q).
  { pose proof (round_nearest_even_cases mrs') as C. fold q in C.
    destruct C as [-> | [-> _]]; lia. }
  destruct (shr_fexp prec emax q e' loc_Exact) as [mrs'' e''] eqn:S2.
  assert (G2 : scaled_ge q e' H)
    by (eapply scaled_ge_mantissa; [exact Q | exact G1]).
  assert (Q0 : 0 <= q) by lia.
  destruct (shr_fexp_ge _ _ _ _ _ Q0 HH G2 S2) as [B2 G3].
  assert (H0 : 0 < H) by lia.
  pose proof (scaled_ge_positive _ _ _ H0 G3) as P.
  destruct (shr_m mrs'') as [| m | m]; try lia.
  destruct (e'' <=? emax - prec); [| reflexivity].
  repeat split; [exact G3 | lia].
Qed.

(** The float of an integer that is at least [H] is at least [H]. *)
Lemma float_of_int_ge c H a :
  0 < H <= 2 ^ 53 -> H <= c -> float_of_int c = Some a ->
  exists m e, a = S754_finite false m e /\
              scaled_ge (Z.pos m) e H /\ Z.pos m < 2 ^ 53.
Proof.
  intros HH Hc. unfold float_of_int.
  destruct c as [| p | p]; try lia.
  unfold binary_normalize, binary_round.
  destruct (shl_align p 0 (fexp prec emax (Z.pos (digits2_pos p) + 0)))
    as [mz ez] eqn:A.
  assert (S : scaled_ge (Z.pos mz) ez H).
  { apply (scaled_ge_weaken _ _ (Z.pos p)); [exact Hc |].
    unfold shl_align in A.
    destruct (fexp prec emax (Z.pos (digits2_pos p) + 0) - 0)
      as [| d | d] eqn:D; injection A as <- <-.
    - rewrite scaled_ge_nonneg_exp by lia. simpl. lia.
    - rewrite scaled_ge_nonneg_exp by lia. simpl. lia.
    - assert (E : fexp prec emax (Z.pos (digits2_pos p) + 0) = Z.neg d)
        by lia.
      rewrite Z.add_0_r in E. rewrite E.
      rewrite scaled_ge_nonpos_exp by lia.
      change (Pos.iter xO p d) with (shift_pos d p).
      rewrite shift_pos_correct.
      change (Z.pow_pos 2 d) with (2 ^ Z.pos d).
      change (- Z.neg d) with (Z.pos d). lia. }
  pose proof (binary_round_aux_ge (Z.pos mz) ez H (Pos2Z.is_nonneg _) HH S)
    as R.
  destruct (binary_round_aux prec emax false (Z.pos mz) ez loc_Exact)
    as [s | s | | s m e]; try contradiction; try discriminate.
  intros E. injection E as <-. destruct R as (-> & R1 & R2).
  exists m, e. repeat split; assumption.
Qed.

(** A binary64 value that is not below a positive float of value at
    least [H] is plus infinity or a positive float of value at least
    [H]. *)
Lemma float_above_scaled ma ea g H :
  0 < H -> scaled_ge (Z.pos ma) ea H -> Z.pos ma < 2 ^ 53 ->
  valid_binary prec emax g = true ->
  SFleb (S754_finite false ma ea) g = true ->
  g = S754_infinity false \/
  exists mg eg, g = S754_finite false mg eg /\ scaled_ge (Z.pos mg) eg H.
Proof.
  intros HH S B V L.
  destruct g as [s | [|] | | [|] mg eg]; try discriminate L.
  - left. reflexivity.
  - right. exists mg, eg. split; [reflexivity |].
    unfold SFleb in L. cbn [SFcompare] in L.
    destruct (Z.compare_spec ea eg) as [Eq | Lt | Gt]; try discriminate L.
    + subst eg.
      change (Pos.compare_cont Eq ma mg) with (Pos.compare ma mg) in L.
      assert (M : Z.pos ma <= Z.pos mg).
      { destruct (Pos.compare_spec ma mg); try discriminate L; lia. }
      eapply scaled_ge_mantissa; [exact M | exact S].
    + cbn [valid_binary] in V. unfold bounded in V.
      apply andb_true_iff in V. destruct V as [C _].
      apply canonical_digits in C. destruct C as (_ & Cg & Dg).
      assert (Ea : - 53 < ea).
      { destruct (Z.le_gt_cases 0 ea) as [He | He]; [lia |].
        rewrite scaled_ge_nonpos_exp in S by lia.
        assert (P : 2 ^ (- ea) < 2 ^ 53).
        { assert (0 < 2 ^ (- ea)) by (apply Z.pow_pos_nonneg; lia). nia. }
        apply Z.pow_lt_mono_r_iff in P; lia. }
      pose proof (digits2_pos_lower mg) as Lg.
      rewrite Dg in Lg by lia. change (2 ^ (53 - 1)) with (2 ^ 52) in Lg.
      set (K := Z.max (- ea) 0).
      rewrite (scaled_ge_iff _ _ _ K) in S by (unfold K; lia).
      rewrite (scaled_ge_iff _ _ _ K) by (unfold K; lia).
      eapply Z.le_trans; [exact S |].
      replace (eg + K) with ((ea + K) + (eg - ea)) by lia.
      rewrite (Z.pow_add_r 2 (ea + K) (eg - ea)) by (unfold K; lia).
      assert (0 < 2 ^ (ea + K)) by (apply Z.pow_pos_nonneg; unfold K; lia).
      assert (T : 2 ^ 1 <= 2 ^ (eg - ea)) by (apply Z.pow_le_mono_r; lia).
      change (2 ^ 1) with 2 in T.
      change (2 ^ 53) with (2 ^ 52 * 2) in B.
      set (X := 2 ^ (ea + K)) in *. set (Y := 2 ^ (eg - ea)) in *.
      set (W := 2 ^ 52) in *.
      assert (A1 : Z.pos ma * X <= W * 2 * X) by nia.
      assert (A2 : W * 2 <= Z.pos mg * Y) by nia.
      assert (A3 : W * 2 * X <= Z.pos mg * Y * X)
        by (apply Z.mul_le_mono_nonneg_r; lia).
      lia.
Qed.

(** A fraction draw that is not below the float of an integer [c >= 2]
    stands for a size above the dimension. *)
Lemma size_above_dimension dimension c cf g z :
  0 < dimension < 2 ^ 53 -> 2 <= c ->
  float_of_int c = Some cf ->
  valid_binary prec emax g = true -> SFleb cf g = true ->
  draw_size dimension (DFloat g) = Some z ->
  dimension < z.
Proof.
  intros Hd Hc Ec V L.
  assert (H2 : 0 < 2 <= 2 ^ 53) by lia.
  destruct (float_of_int_ge c 2 cf H2 Hc Ec) as (mc & ec & -> & Sc & Bc).
  destruct (float_above_scaled mc ec g 2 (proj1 H2) Sc Bc V L)
    as [-> | (mg & eg & -> & Sg)].
  - cbn [draw_size]. unfold py_mul_int_float.
    destruct (float_of_int dimension) as [[s | s | | s m e] |] eqn:Ed;
      cbn [SFmul py_int]; discriminate.
  - cbn [draw_size]. unfold py_mul_int_float.
    destruct (float_of_int dimension) as [df |] eqn:Ed; [| discriminate].
    assert (Hd' : 0 < dimension <= 2 ^ 53) by lia.
    destruct (float_of_int_ge dimension dimension df Hd' (Z.le_refl _) Ed)
      as (md & ed & -> & Sd & Bd).
    cbn [SFmul xorb].
    assert (Sp : scaled_ge (Z.pos (md * mg)) (ed + eg) (dimension + 1)).
    { apply (scaled_ge_weaken _ _ (dimension * 2)); [lia |].
      rewrite Pos2Z.inj_mul. apply scaled_ge_mul; try lia; assumption. }
    assert (Hd1 : 0 < dimension + 1 <= 2 ^ 53) by lia.
    pose proof (binary_round_aux_ge (Z.pos (md * mg)) (ed + eg)
                  (dimension + 1) (Pos2Z.is_nonneg _) Hd1 Sp) as R.
    destruct (binary_round_aux prec emax false (Z.pos (md * mg)) (ed + eg)
                loc_Exact) as [s | s | | s m e]; try contradiction.
    + discriminate.
    + destruct R as (-> & R & _). cbn [py_int].
      intros E. injection E as <-.
      apply trunc_mag_ge in R. lia.
Qed.

(** ** A fraction height range beside an integer width range *)

Lemma fraction_branch_integer_width height width lo hi c d t hh hw t' :
  0 < width < 2 ^ 53 -> 2 <= c ->
  run (calculate_hole_dimensions height width
         (PyFloat lo, hi) (PyInt c, PyInt d)) t
    = Some (Returned (hh, hw), t') ->
  width < hw.
Proof.
  intros Hw Hc R.
  apply run_calculate_hole_dimensions_returned in R.
  destruct R as (dh & dw & _ & R). cbn [fst snd is_int] in R.
  destruct R as (_ & f & cf & df & -> & Ec & _ & A & S).
  cbn [to_float] in Ec. unfold float_answer_ok in A.
  apply andb_true_iff in A. destruct A as [A _].
  apply andb_true_iff in A. destruct A as [V L].
  eapply size_above_dimension; eassumption.
Qed.

(** When the height range starts with a float, both sizes are sized as
    fractions of the image; an integer width range with a low of 2 or more
    then gives a width above the image width, and the draw of the x
    coordinate is from an empty interval: with at least one hole to make,
    every run that completes ends in an exception, on every image from 1
    to [2^53 - 1] pixels wide.  Such a schema can pass the check. *)
Theorem fraction_height_integer_width_raises
    self height width lo hi c d :
  hole_height_range self = (PyFloat lo, hi) ->
  hole_width_range self = (PyInt c, PyInt d) ->
  2 <= c -> 0 < width < 2 ^ 53 ->
  1 <= fst (num_holes_range self) ->
  always_raises (get_params_dependent_on_targets self height width).
Proof.
  intros Eh Ew Hc Hw Hn.
  assert (L : forall n acc t o t',
             run (holes_loop (S n) height width
                    (PyFloat lo, hi) (PyInt c, PyInt d) acc) t
               = Some (o, t') ->
             exists e, o = Raised e).
  { intros n acc t o t'. cbn [holes_loop]. rewrite run_bind.
    destruct (run (calculate_hole_dimensions height width
                     (PyFloat lo, hi) (PyInt c, PyInt d)) t)
      as [[[[hh hw] | e] t1] |] eqn:R1; [| | discriminate].
    - apply fraction_branch_integer_width in R1; [| exact Hw | exact Hc].
      rewrite run_bind.
      destruct (run (randint (PyInt 0) (PyInt (height - hh + 1))) t1)
        as [[[y1 | e] t2] |] eqn:R2; [| | discriminate].
      + rewrite run_bind, run_randint_empty by lia.
        intros E. injection E as <- _. eauto.
      + intros E. injection E as <- _. eauto.
    - intros E. injection E as <- _. eauto. }
  intros t o t'. unfold get_params_dependent_on_targets.
  rewrite Eh, Ew. rewrite run_bind.
  destruct (run (randint (PyInt (fst (num_holes_range self)))
                   (PyInt (snd (num_holes_range self) + 1))) t)
    as [[[n | e] t1] |] eqn:R1; [| | discriminate].
  - apply run_randint_cases in R1.
    destruct R1 as [(_ & K & _) | (z & Hz & K & ->)]; [discriminate K |].
    injection K as <-.
    destruct (Z.to_nat n) as [| k] eqn:Ek; [lia |]. apply L.
  - intros E. injection E as <- _. eauto.
Qed.

Lemma fraction_height_integer_width_raises_witness :
  InitSchema.check_holes_and_dimensions half_height_only
    = Returned (InitSchema.normalize half_height_only) /\
  always_raises
    (get_params_dependent_on_targets
       (init (InitSchema.normalize half_height_only)) 10 10) /\
  run (get_params_dependent_on_targets
         (init (InitSchema.normalize half_height_only)) 10 10)
      [DInt 1; DFloat float_half; DFloat float_eight; DInt 0]
    = Some (Raised ValueError_low_ge_high, []).
Proof.
  split; [reflexivity |]. split.
  - apply (fraction_height_integer_width_raises
             (init (InitSchema.normalize half_height_only)) 10 10
             float_half (PyFloat float_half) 8 8).
    + reflexivity.
    + reflexivity.
    + lia.
    + lia.
    + simpl. lia.
  - vm_compute. reflexivity.
Defined.

(** ** The holes integer ranges can give *)

Lemma int_branch_run height width a b c d hh hw t :
  a <= hh <= Z.min b height -> c <= hw <= Z.min d width ->
  run (calculate_hole_dimensions height width
         (PyInt a, PyInt b) (PyInt c, PyInt d))
      (DInt hh :: DInt hw :: t)
    = Some (Returned (hh, hw), t).
Proof.
  intros Hh Hw. unfold calculate_hole_dimensions.
  cbn [fst snd is_int]. rewrite !py_min_int. cbn [py_succ].
  rewrite run_bind, run_randint_ok by lia.
  rewrite run_bind, run_randint_ok by lia. reflexivity.
Qed.

Lemma int_loop_run height width a b c d holes : forall acc t,
  Forall (admissible height width a b c d) holes ->
  run (holes_loop (List.length holes) height width
         (PyInt a, PyInt b) (PyInt c, PyInt d) acc)
      (concat (map draws_of_hole holes) ++ t)
    = Some (Returned (acc ++ holes), t).
Proof.
  induction holes as [| [[[x1 y1] x2] y2] holes IH]; intros acc t F.
  - cbn. rewrite app_nil_r. reflexivity.
  - inversion F as [| ? ? A F']; subst. destruct A as (Hh & Hw & Hy & Hx).
    cbn [List.length holes_loop map concat draws_of_hole app].
    rewrite run_bind, int_branch_run by assumption.
    rewrite run_bind, run_randint_ok by lia.
    rewrite run_bind, run_randint_ok by lia.
    replace (y1 + (y2 - y1)) with y2 by lia.
    replace (x1 + (x2 - x1)) with x2 by lia.
    rewrite IH by exact F'. rewrite <- app_assoc. reflexivity.
Qed.

(** With two integer size ranges and a hole count range that starts at 0
    or above, the lists of holes the sampler can return are exactly the
    lists, of a length within the hole count range, of holes within the
    image whose height lies between
    the low of the height range and the smaller of its high and the image
    height, and whose width likewise: every such list is returned by the
    run that draws its length and then, hole after hole, the height, the
    width, [y1] and [x1]. *)
Theorem integer_ranges_give_the_admissible_holes
    self height width a b c d holes :
  hole_height_range self = (PyInt a, PyInt b) ->
  hole_width_range self = (PyInt c, PyInt d) ->
  0 <= fst (num_holes_range self) ->
  ((exists tape rest,
       run (get_params_dependent_on_targets self height width) tape
         = Some (Returned holes, rest)) <->
   fst (num_holes_range self) <= Z.of_nat (List.length holes)
     <= snd (num_holes_range self) /\
   Forall (admissible height width a b c d) holes) /\
  (fst (num_holes_range self) <= Z.of_nat (List.length holes)
     <= snd (num_holes_range self) ->
   Forall (admissible height width a b c d) holes ->
   run (get_params_dependent_on_targets self height width)
       (DInt (Z.of_nat (List.length holes))
        :: concat (map draws_of_hole holes))
     = Some (Returned holes, [])).
Proof.
  intros Eh Ew H0.
  assert (B : fst (num_holes_range self) <= Z.of_nat (List.length holes)
                <= snd (num_holes_range self) ->
              Forall (admissible height width a b c d) holes ->
              run (get_params_dependent_on_targets self height width)
                  (DInt (Z.of_nat (List.length holes))
                   :: concat (map draws_of_hole holes))
                = Some (Returned holes, [])).
  { intros Hn F. unfold get_params_dependent_on_targets.
    rewrite Eh, Ew, run_bind, run_randint_ok by lia.
    rewrite Nat2Z.id.
    rewrite <- (app_nil_r (concat (map draws_of_hole holes))).
    rewrite int_loop_run by exact F. reflexivity. }
  split; [| exact B]. split.
  - intros (tape & rest & R).
    apply (run_sampler_returned self height width
             (fun hh hw => a <= hh <= Z.min b height /\
                           c <= hw <= Z.min d width)) in R.
    + destruct R as (n & body & ss & -> & Hn & RS & -> & F).
      apply read_samples_length in RS. rewrite length_map, RS.
      split; [lia |].
      apply Forall_map. eapply Forall_impl; [| exact F].
      intros s [S C]. unfold corner_fits in C.
      unfold admissible, hole_of_sample. lia.
    + rewrite Eh, Ew. intros t hh hw t' D.
      apply int_branch_sizes in D. apply D.
  - intros [Hn F]. eexists. eexists. apply B; assumption.
Qed.

Lemma integer_ranges_give_the_admissible_holes_witness :
  run (get_params_dependent_on_targets two_holes 10 12)
      (DInt (Z.of_nat (List.length [(0, 5, 12, 8); (2, 1, 5, 3)]))
       :: concat (map draws_of_hole [(0, 5, 12, 8); (2, 1, 5, 3)]))
    = Some (Returned [(0, 5, 12, 8); (2, 1, 5, 3)], []).
Proof.
  refine (proj2 (integer_ranges_give_the_admissible_holes two_holes 10 12
                   2 4 3 30 [(0, 5, 12, 8); (2, 1, 5, 3)] _ _ _) _ _).
  - reflexivity.
  - reflexivity.
  - simpl. lia.
  - simpl. lia.
  - repeat constructor; simpl; lia.
Defined.

(** ** The fraction 1 *)

(** The whole of a dimension below [2^53], as a fraction draw of 1, is
    the dimension: the product is exact. *)
Lemma whole_dimension dimension :
  0 < dimension < 2 ^ 53 ->
  draw_size dimension (DFloat float_one) = Some dimension.
Proof.
  intros Hd.
  destruct (fraction_size_fits dimension float_one float_one Hd)
    as (z & Ez & Bz); try reflexivity.
  rewrite Ez. f_equal. apply Z.le_antisymm; [apply Bz |].
  revert Ez. cbn [draw_size]. unfold py_mul_int_float.
  destruct (float_of_int dimension) as [df |] eqn:Ed; [| discriminate].
  assert (Hd' : 0 < dimension <= 2 ^ 53) by lia.
  destruct (float_of_int_ge dimension dimension df Hd' (Z.le_refl _) Ed)
    as (md & ed & -> & Sd & Bd).
  unfold float_one. cbn [SFmul xorb].
  assert (S1 : scaled_ge 4503599627370496 (-52) 1).
  { unfold scaled_ge. simpl. lia. }
  assert (Sp : scaled_ge (Z.pos (md * 4503599627370496)) (ed + -52)
                 dimension).
  { apply (scaled_ge_weaken _ _ (dimension * 1)); [lia |].
    rewrite Pos2Z.inj_mul. apply scaled_ge_mul; try lia; assumption. }
  pose proof (binary_round_aux_ge (Z.pos (md * 4503599627370496))
                (ed + -52) dimension (Pos2Z.is_nonneg _) Hd' Sp) as R.
  destruct (binary_round_aux prec emax false
              (Z.pos (md * 4503599627370496)) (ed + -52) loc_Exact)
    as [s | s | | s m e]; try contradiction.
  - discriminate.
  - destruct R as (-> & R & _). cbn [py_int].
    intros E. injection E as <-. apply trunc_mag_ge. exact R.
Qed.

(** With the fraction range [(1.0, 1.0)] for both sizes, every hole of a
    run that returns is the whole image, on images below [2^53] pixels a
    side: the size is the dimension itself, nothing is lost to rounding,
    and the corner can only be [(0, 0)]. *)
Theorem fraction_one_covers_the_image
    self height width tape holes rest :
  hole_height_range self = (PyFloat float_one, PyFloat float_one) ->
  hole_width_range self = (PyFloat float_one, PyFloat float_one) ->
  0 < height < 2 ^ 53 -> 0 < width < 2 ^ 53 ->
  run (get_params_dependent_on_targets self height width) tape
    = Some (Returned holes, rest) ->
  Forall (fun hole => hole = (0, 0, width, height)) holes.
Proof.
  intros Eh Ew Hh Hw R.
  apply (run_sampler_returned self height width
           (fun hh hw => hh = height /\ hw = width)) in R.
  - destruct R as (n & body & ss & -> & _ & _ & -> & F).
    apply Forall_map. eapply Forall_impl; [| exact F].
    intros [hh hw y1 x1] [[S1 S2] [C1 C2]].
    cbn [s_height s_width s_y1 s_x1] in *. subst hh hw.
    unfold hole_of_sample. cbn [s_height s_width s_y1 s_x1].
    assert (y1 = 0) as -> by lia. assert (x1 = 0) as -> by lia.
    reflexivity.
  - rewrite Eh, Ew. intros t hh hw t' D.
    apply run_calculate_hole_dimensions_returned in D.
    destruct D as (dh & dw & _ & D). cbn [fst snd is_int] in D.
    destruct D as [(f & lo & hi & -> & El & Eu & A & S)
                   (g & lo' & hi' & -> & El' & Eu' & A' & S')].
    cbn [to_float] in El, Eu, El', Eu'.
    injection El as <-. injection Eu as <-.
    injection El' as <-. injection Eu' as <-.
    apply (draw_size_pinned _ _ _ _ A) in S.
    apply (draw_size_pinned _ _ _ _ A') in S'.
    rewrite whole_dimension in S, S' by assumption.
    injection S as <-. injection S' as <-. split; reflexivity.
Qed.

Lemma fraction_one_covers_the_image_witness :
  Forall (fun hole => hole = (0, 0, 12, 10)) [(0, 0, 12, 10)].
Proof.
  refine (fraction_one_covers_the_image whole_image 10 12
            [DInt 1; DFloat float_one; DFloat float_one; DInt 0; DInt 0]
            [(0, 0, 12, 10)] [] _ _ _ _ _).
  - reflexivity.
  - reflexivity.
  - lia.
  - lia.
  - vm_compute. reflexivity.
Defined.
